(** * Causality graphs for specification mining: a shallow embedding

    This development embeds [causality/causality.py] in Rocq and proves
    properties of its causality predicate, graph builder, sequence
    enumerator, sequence projector and pair filter.

    Modelling choices, all taken from the Python source:
    - a Python [int] is a [Z]; a [str] is a [string];
    - the enumerations [Direction] and [Position] are inductive types;
    - a [dict] is an association list in insertion order (Python iterates a
      dict in insertion order); [d[k]] is [dict_get], which raises
      [KeyError] on a missing key;
    - a [set] of ids is a [gset Z]; Python leaves the iteration order of a
      set unspecified, so the enumerator is parametrised by the order
      [set_iter] in which a set is traversed;
    - an exception is a value of type [exn], carried by [result];
    - the two in-place builders thread the mutated object explicitly: the
      state reached is returned next to the outcome, also when an exception
      leaves the function half-way; the graph builder is given twice: on
      a graph in which every key owns its set of successors, as in the
      graphs that [build_graph] makes, and, in module [Shared], on a graph
      whose keys refer to set objects in a store, which several keys may
      share ([owned_sets_refine] relates the two);
    - the recursion of [recursive_build_sequences] is driven by a fuel
      argument; [build_sequences] supplies enough of it, which is proved. *)

From stdpp Require Import base decidable option list gmap sets strings sorting.
From Stdlib Require Import ZArith Lia Ascii.

Local Open Scope Z_scope.

(** ** Message model *)

Inductive Direction := REQ | RESP.

Inductive Position := INITIAL | INTERMEDIARY | FINAL.

#[global] Instance Direction_eq_dec : EqDecision Direction.
Proof. solve_decision. Defined.

#[global] Instance Position_eq_dec : EqDecision Position.
Proof. solve_decision. Defined.

Record Message := mkMessage {
  id : Z;
  origin : string;
  destination : string;
  operation : string;
  direction : Direction;
  position : Position
}.

(** ** Exceptions and Python containers *)

Inductive exn :=
| KeyError (key : Z)
| ValueError.

Inductive result (A : Type) :=
| Ok (a : A)
| Raise (e : exn).

Arguments Ok {A} a.
Arguments Raise {A} e.

Definition dict (V : Type) := list (Z * V).

(** [d[k]] *)
Fixpoint dict_get {V} (d : dict V) (k : Z) : result V :=
  match d with
  | [] => Raise (KeyError k)
  | (k', v) :: d' => if bool_decide (k = k') then Ok v else dict_get d' k
  end.

(** [for k in d] *)
Definition dict_keys {V} (d : dict V) : list Z := map fst d.

(** The object stored under [k] is replaced by [f] of it: the effect of a
    method that mutates [d[k]] in place. *)
Fixpoint dict_update {V} (d : dict V) (k : Z) (f : V → V) : dict V :=
  match d with
  | [] => []
  | (k', v) :: d' =>
      if bool_decide (k = k') then (k', f v) :: d' else (k', v) :: dict_update d' k f
  end.

(** [len(l)] *)
Definition len {A : Type} (l : list A) : Z := Z.of_nat (length l).

(** [l.index(x)]: the position of the first occurrence. *)
Fixpoint list_index (l : list Z) (x : Z) : result Z :=
  match l with
  | [] => Raise ValueError
  | y :: l' =>
      if bool_decide (y = x) then Ok 0
      else match list_index l' x with
           | Ok i => Ok (i + 1)
           | Raise e => Raise e
           end
  end.

(** ** Causality predicate *)

Definition causal (a b : Message) : bool :=
  negb (
    (bool_decide (direction a = RESP) && bool_decide (direction b = REQ))
    || bool_decide (destination a ≠ origin b)
    || bool_decide (position a = FINAL)
    || bool_decide (position b = INITIAL)
    || bool_decide (id a = id b)
  ).

Definition with_operation (m : Message) (op : string) : Message :=
  {| id := id m; origin := origin m; destination := destination m;
     operation := op; direction := direction m; position := position m |}.

(** ** Graph builder *)

(** A loop [for x in xs: body] over a state of type [S]: the first exception
    ends the loop and keeps the state reached so far. *)
Fixpoint for_each {X S : Type} (xs : list X) (body : X → S → S * result unit)
    (s : S) : S * result unit :=
  match xs with
  | [] => (s, Ok tt)
  | x :: xs' =>
      match body x s with
      | (s', Ok _) => for_each xs' body s'
      | (s', Raise e) => (s', Raise e)
      end
  end.

(** [graph[a_id].add(b_id)] on a graph in which every key owns its set: the
    set under [a_id] changes and no other. Set objects that several keys
    share are treated in module [Shared] below. *)
Definition add_successor (a_id b_id : Z) (graph : dict (gset Z)) :
    dict (gset Z) * result unit :=
  match dict_get graph a_id with
  | Ok _ => (dict_update graph a_id (λ successors, {[b_id]} ∪ successors), Ok tt)
  | Raise e => (graph, Raise e)
  end.

(** The body of the inner loop: [library[a_id]] is evaluated before
    [library[b_id]]. *)
Definition relate (library : dict Message) (a_id b_id : Z)
    (graph : dict (gset Z)) : dict (gset Z) * result unit :=
  match dict_get library a_id with
  | Raise e => (graph, Raise e)
  | Ok a =>
      match dict_get library b_id with
      | Raise e => (graph, Raise e)
      | Ok b => if causal a b then add_successor a_id b_id graph else (graph, Ok tt)
      end
  end.

(** The graph is mutated in place: the function yields the graph as it is
    when the function is left, and whether it was left by an exception. The
    keys do not change during the run, so both loops range over the keys of
    the graph passed in. *)
Definition build_relationships (graph : dict (gset Z)) (library : dict Message) :
    dict (gset Z) * result unit :=
  for_each (dict_keys graph)
    (λ a_id, for_each (dict_keys graph) (λ b_id, relate library a_id b_id))
    graph.

(** [b_id in graph[a_id]] *)
Definition has_edge (graph : dict (gset Z)) (a_id b_id : Z) : Prop :=
  ∃ successors, dict_get graph a_id = Ok successors ∧ b_id ∈ successors.

(** [causal(library[a_id], library[b_id])] holds. *)
Definition causal_ids (library : dict Message) (a_id b_id : Z) : Prop :=
  ∃ a b, dict_get library a_id = Ok a ∧ dict_get library b_id = Ok b
         ∧ causal a b = true.

(** ** Graph builder on shared set objects

    A Python [set] is an object: [graph[a_id].add(b_id)] changes the object
    that [graph[a_id]] refers to, and every key that refers to the same
    object sees the change. Here the graph maps a key to the identity of a
    set object, a [nat], and the store [sets] maps the identities to the
    sets. The graph builder changes the store only. *)
Module Shared.

(** [x in o] for the set object [o] of identity [r]. *)
Definition holds (sets : gmap nat (gset Z)) (r : nat) (x : Z) : Prop :=
  ∃ successors, sets !! r = Some successors ∧ x ∈ successors.

(** [b_id in graph[a_id]] *)
Definition has_edge (graph : dict nat) (sets : gmap nat (gset Z))
    (a_id b_id : Z) : Prop :=
  ∃ r, dict_get graph a_id = Ok r ∧ holds sets r b_id.

(** [graph[a_id] is graph[a_id']] *)
Definition same_set (graph : dict nat) (a_id a_id' : Z) : Prop :=
  ∃ r, dict_get graph a_id = Ok r ∧ dict_get graph a_id' = Ok r.

(** Every key refers to a set object of the store. *)
Definition allocated (graph : dict nat) (sets : gmap nat (gset Z)) : Prop :=
  ∀ k r, dict_get graph k = Ok r → is_Some (sets !! r).

(** [graph[a_id].add(b_id)] *)
Definition add_successor (a_id b_id : Z) (graph : dict nat)
    (sets : gmap nat (gset Z)) : gmap nat (gset Z) * result unit :=
  match dict_get graph a_id with
  | Ok r => (alter (λ successors, {[b_id]} ∪ successors) r sets, Ok tt)
  | Raise e => (sets, Raise e)
  end.

Definition relate (library : dict Message) (a_id b_id : Z) (graph : dict nat)
    (sets : gmap nat (gset Z)) : gmap nat (gset Z) * result unit :=
  match dict_get library a_id with
  | Raise e => (sets, Raise e)
  | Ok a =>
      match dict_get library b_id with
      | Raise e => (sets, Raise e)
      | Ok b => if causal a b then add_successor a_id b_id graph sets
                else (sets, Ok tt)
      end
  end.

Definition build_relationships (graph : dict nat) (library : dict Message)
    (sets : gmap nat (gset Z)) : gmap nat (gset Z) * result unit :=
  for_each (dict_keys graph)
    (λ a_id, for_each (dict_keys graph) (λ b_id, relate library a_id b_id graph))
    sets.

(** The graph as a dictionary of sets: under every key the set it refers to. *)
Definition contents (graph : dict nat) (sets : gmap nat (gset Z)) : dict (gset Z) :=
  (λ entry : Z * nat, (entry.1, default ∅ (sets !! entry.2))) <$> graph.

End Shared.

(** Three keys that share one set object, empty at first. *)
Definition shared_graph : dict nat := [(1, 0%nat); (2, 0%nat); (3, 0%nat)].
Definition shared_sets : gmap nat (gset Z) := {[0%nat := ∅]}.

(** Three keys with a set object each. *)
Definition owned_graph : dict nat := [(1, 0%nat); (2, 1%nat); (3, 2%nat)].
Definition owned_sets : gmap nat (gset Z) := {[0%nat := ∅; 1%nat := ∅; 2%nat := ∅]}.

(** ** Sequence enumerator *)

(** The loop of a computation that may run out of fuel ([None]). *)
Fixpoint for_each_fuel {X S : Type} (xs : list X)
    (body : X → S → option (S * result unit)) (s : S) : option (S * result unit) :=
  match xs with
  | [] => Some (s, Ok tt)
  | x :: xs' =>
      match body x s with
      | Some (s', Ok _) => for_each_fuel xs' body s'
      | Some (s', Raise e) => Some (s', Raise e)
      | None => None
      end
  end.

(** [sequence_destination] is the list the caller passed in, appended to in
    place; the function yields it as it is when the function is left. [None]
    only says that [fuel] was too small. *)
Fixpoint recursive_build_sequences (set_iter : gset Z → list Z) (fuel : nat)
    (starting_id : Z) (accumulated : list Z) (sequence_destination : list (list Z))
    (max_depth : Z) (graph : dict (gset Z)) (library : dict Message)
    {struct fuel} : option (list (list Z) * result unit) :=
  match fuel with
  | O => None
  | S fuel' =>
      if bool_decide (starting_id ∈ accumulated) then Some (sequence_destination, Ok tt)
      else
        let new_accumulation := accumulated ++ [starting_id] in
        if bool_decide (len new_accumulation > max_depth)
        then Some (sequence_destination, Ok tt)
        else
          match dict_get library starting_id with
          | Raise e => Some (sequence_destination, Raise e)
          | Ok m =>
              if bool_decide (position m = FINAL)
              then Some (sequence_destination ++ [new_accumulation], Ok tt)
              else
                match dict_get graph starting_id with
                | Raise e => Some (sequence_destination, Raise e)
                | Ok successors =>
                    for_each_fuel (set_iter successors)
                      (λ next_id dest,
                         recursive_build_sequences set_iter fuel' next_id
                           new_accumulation dest max_depth graph library)
                      sequence_destination
                end
          end
  end.

(** The recursion is at most [max_depth + 1] calls deep. *)
Definition depth_fuel (max_depth : Z) : nat := S (Z.to_nat max_depth).

Definition build_sequences (set_iter : gset Z → list Z) (starting_id max_depth : Z)
    (graph : dict (gset Z)) (library : dict Message) : option (result (list (list Z))) :=
  match recursive_build_sequences set_iter (depth_fuel max_depth) starting_id []
          [] max_depth graph library with
  | Some (dest, Ok _) => Some (Ok dest)
  | Some (_, Raise e) => Some (Raise e)
  | None => None
  end.

(** The loop of [generate_all_sequences] over the remaining keys, with the
    local list [sequences] built so far. *)
Fixpoint generate_from (set_iter : gset Z → list Z) (message_ids : list Z)
    (sequences : list (list Z)) (library : dict Message) (graph : dict (gset Z))
    (max_depth : Z) : option (result (list (list Z))) :=
  match message_ids with
  | [] => Some (Ok sequences)
  | message_id :: rest =>
      match dict_get library message_id with
      | Raise e => Some (Raise e)
      | Ok m =>
          if bool_decide (position m = INITIAL) then
            match build_sequences set_iter message_id max_depth graph library with
            | Some (Ok found) =>
                generate_from set_iter rest (sequences ++ found) library graph max_depth
            | Some (Raise e) => Some (Raise e)
            | None => None
            end
          else generate_from set_iter rest sequences library graph max_depth
      end
  end.

Definition generate_all_sequences (set_iter : gset Z → list Z)
    (library : dict Message) (graph : dict (gset Z)) (max_depth : Z) :
    option (result (list (list Z))) :=
  generate_from set_iter (dict_keys library) [] library graph max_depth.

(** A causal chain that the enumerator can complete: it follows edges of
    the graph through messages that are not FINAL and ends at the first
    FINAL message. *)
Inductive path_to_final (library : dict Message) (graph : dict (gset Z)) :
    list Z → Prop :=
| path_final (x : Z) (m : Message) :
    dict_get library x = Ok m → position m = FINAL →
    path_to_final library graph [x]
| path_step (x y : Z) (rest : list Z) (m : Message) :
    dict_get library x = Ok m → position m ≠ FINAL →
    has_edge graph x y →
    path_to_final library graph (y :: rest) →
    path_to_final library graph (x :: y :: rest).

(** A chain that ends at a lookup that fails: an id that is not in the
    library, or the id of a message that is not FINAL and has no entry in
    the graph. *)
Inductive path_to_missing (library : dict Message) (graph : dict (gset Z)) :
    list Z → Prop :=
| missing_message (x : Z) :
    x ∉ dict_keys library →
    path_to_missing library graph [x]
| missing_node (x : Z) (m : Message) :
    dict_get library x = Ok m → position m ≠ FINAL →
    x ∉ dict_keys graph →
    path_to_missing library graph [x]
| missing_step (x y : Z) (rest : list Z) (m : Message) :
    dict_get library x = Ok m → position m ≠ FINAL →
    has_edge graph x y →
    path_to_missing library graph (y :: rest) →
    path_to_missing library graph (x :: y :: rest).

(** What the enumerator is to produce from [starting_id]: the chains from
    it to a FINAL message that repeat no id and are within the depth bound. *)
Definition chain_from (library : dict Message) (graph : dict (gset Z))
    (max_depth starting_id : Z) (s : list Z) : Prop :=
  head s = Some starting_id
  ∧ path_to_final library graph s
  ∧ NoDup s
  ∧ len s ≤ max_depth.

(** ** Sequence projector *)

(** [l.sort(key=key)]: the sort built into Python is ascending and stable,
    which determines its result ([stable_sort_unique] below). It is modelled
    by an insertion sort: an element is inserted in front of the first
    element whose key is not smaller, so that elements with equal keys keep
    the order they had. *)
Fixpoint insert_by_key {A : Type} (key : A → Z) (x : A) (l : list A) : list A :=
  match l with
  | [] => [x]
  | y :: l' => if bool_decide (key x ≤ key y) then x :: y :: l'
               else y :: insert_by_key key x l'
  end.

Fixpoint sort_by_key {A : Type} (key : A → Z) (l : list A) : list A :=
  match l with
  | [] => []
  | x :: l' => insert_by_key key x (sort_by_key key l')
  end.

Definition project_sequences (sequences : list (list Z)) (whitelist : gset Z) :
    list (list Z) :=
  let new_sequences :=
    foldl (λ (new_sequences : list (list Z)) (sequence : list Z),
             let new_sequence :=
               foldl (λ (new_sequence : list Z) (id : Z),
                        if bool_decide (id ∈ whitelist) then new_sequence ++ [id]
                        else new_sequence)
                     [] sequence in
             if bool_decide (len new_sequence > 1)
                && negb (bool_decide (new_sequence ∈ new_sequences))
             then new_sequences ++ [new_sequence]
             else new_sequences)
          [] sequences in
  sort_by_key len new_sequences.

(** The projector in the words of the specification: keep the whitelisted
    ids of every sequence in their order, discard what has fewer than two
    elements, drop later copies of a sub-sequence already produced, and sort
    by length with a stable sort. *)
Fixpoint first_occurrences {A : Type} `{EqDecision A} (l : list A) : list A :=
  match l with
  | [] => []
  | x :: l' => x :: filter (λ y, y ≠ x) (first_occurrences l')
  end.

Definition sub_sequence (whitelist : gset Z) (sequence : list Z) : list Z :=
  filter (λ id, id ∈ whitelist) sequence.

Definition spec_project_sequences (sequences : list (list Z)) (whitelist : gset Z) :
    list (list Z) :=
  sort_by_key len
    (first_occurrences
       (filter (λ s : list Z, 2 ≤ len s) (sub_sequence whitelist <$> sequences))).

(** ** Pair filter *)

Definition pair_filter (sequence : list Z) (a b : Z) : result bool :=
  if bool_decide (a ∈ sequence) && bool_decide (b ∈ sequence) then
    match list_index sequence a with
    | Raise e => Raise e
    | Ok index_a =>
        match list_index sequence b with
        | Raise e => Raise e
        | Ok index_b => Ok (bool_decide (index_a + 1 = index_b))
        end
    end
  else if bool_decide (a ∈ sequence) || bool_decide (b ∈ sequence) then Ok false
  else Ok true.

(** [i] is the position of the first occurrence of [x] in [l]. *)
Definition first_at (l : list Z) (x : Z) (i : nat) : Prop :=
  l !! i = Some x ∧ ∀ j : nat, (j < i)%nat → l !! j ≠ Some x.

(** ** Ingestion: [parse_direction] and [build_graph]

    [build_graph] is modelled from the text that [file.read()] returns, a
    string of the characters of [ascii]. The built-in functions [str.strip]
    and [int] are parameters [strip] and [int] of the model; [str.split]
    with a separator of one character is modelled as it is. The exceptions
    are those of [exn] and [IndexError], raised by an index beyond the end
    of a list. *)

Definition parse_direction (original : string) : result Direction :=
  if bool_decide (original = "req") then Ok REQ
  else if bool_decide (original = "resp") then Ok RESP
  else Raise ValueError.

Inductive ingest_exn :=
| IndexError
| Other (e : exn).

Inductive ingest (A : Type) :=
| Parsed (a : A)
| Failed (e : ingest_exn).

Arguments Parsed {A} a.
Arguments Failed {A} e.

#[global] Instance ingest_ret : MRet ingest := λ A a, Parsed a.

#[global] Instance ingest_bind : MBind ingest :=
  λ A B k m, match m with Parsed a => k a | Failed e => Failed e end.

Definition lift {A : Type} (r : result A) : ingest A :=
  match r with Ok a => Parsed a | Raise e => Failed (Other e) end.

(** [l[i]] for a list and an index that is not negative. *)
Definition item {A : Type} (l : list A) (i : nat) : ingest A :=
  match l !! i with Some x => Parsed x | None => Failed IndexError end.

(** [d[k] = v]: the value of a key that is present is replaced where it
    stands; a new key goes to the end. *)
Fixpoint dict_set {V} (d : dict V) (k : Z) (v : V) : dict V :=
  match d with
  | [] => [(k, v)]
  | (k', v') :: d' =>
      if bool_decide (k = k') then (k', v) :: d' else (k', v') :: dict_set d' k v
  end.

(** [s.split(sep)] for a separator of one character: the pieces between the
    separators, at least one. *)
Fixpoint split (sep : ascii) (s : string) : list string :=
  match s with
  | EmptyString => [EmptyString]
  | String c s' =>
      if bool_decide (c = sep) then EmptyString :: split sep s'
      else match split sep s' with
           | piece :: pieces => String c piece :: pieces
           | [] => [String c EmptyString]
           end
  end.

Definition newline : ascii := "010"%char.

(** The nested [map]s of [build_graph]: the sections between ["#"], their
    lines that are not empty, the stripped pieces between [":"]. *)
Definition sections_of (strip : string → string) (text : string) :
    list (list (list string)) :=
  (λ section,
     (λ line, strip <$> split ":" line)
       <$> filter (λ line, line ≠ EmptyString) (split newline section))
    <$> split "#" text.

Definition section_positions : list Position := [INITIAL; INTERMEDIARY; FINAL].

(** The assignment [library[int(message[0])] = Message(...)]: the right-hand
    side is evaluated first, its arguments from left to right, then the key.
    The result is the key and the message to store under it. *)
Definition read_message (int : string → result Z) (section_index : nat)
    (message : list string) : ingest (Z * Message) :=
  id_text ← item message 0;
  id ← lift (int id_text);
  origin ← item message 1;
  destination ← item message 2;
  operation ← item message 3;
  direction_text ← item message 4;
  direction ← lift (parse_direction direction_text);
  position ← item section_positions section_index;
  key_text ← item message 0;
  key ← lift (int key_text);
  mret (key, mkMessage id origin destination operation direction position).

(** [for message in section]: the library is local to [build_graph], so an
    exception leaves nothing of it. *)
Fixpoint read_section (int : string → result Z) (section_index : nat)
    (section : list (list string)) (library : dict Message) :
    ingest (dict Message) :=
  match section with
  | [] => Parsed library
  | message :: rest =>
      entry ← read_message int section_index message;
      read_section int section_index rest (dict_set library entry.1 entry.2)
  end.

(** [for section_index, section in enumerate(sections)] *)
Fixpoint read_sections (int : string → result Z) (section_index : nat)
    (sections : list (list (list string))) (library : dict Message) :
    ingest (dict Message) :=
  match sections with
  | [] => Parsed library
  | section :: rest =>
      library' ← read_section int section_index section library;
      read_sections int (S section_index) rest library'
  end.

(** [graph = {}; for message_id in library: graph[message_id] = set()] *)
Definition empty_graph (library : dict Message) : dict (gset Z) :=
  foldl (λ (graph : dict (gset Z)) (message_id : Z), dict_set graph message_id ∅)
        [] (dict_keys library).

Definition build_graph (strip : string → string) (int : string → result Z)
    (text : string) : ingest (dict Message * dict (gset Z)) :=
  library ← read_sections int 0 (sections_of strip text) [];
  match build_relationships (empty_graph library) library with
  | (graph, Ok _) => Parsed (library, graph)
  | (_, Raise e) => Failed (Other e)
  end.

(** The records of a file in the order in which they are read, each with
    the index of its section. *)
Fixpoint records_from (section_index : nat) (sections : list (list (list string))) :
    list (nat * list string) :=
  match sections with
  | [] => []
  | section :: rest =>
      ((λ message, (section_index, message)) <$> section)
        ++ records_from (S section_index) rest
  end.

Definition records_of (sections : list (list (list string))) :
    list (nat * list string) :=
  records_from 0 sections.

(** A record that [build_graph] can read: it lies in one of the first three
    sections, has five fields or more, a first field that [int] accepts and
    a fifth field that is ["req"] or ["resp"]. *)
Definition well_formed (int : string → result Z) (record : nat * list string) : Prop :=
  (record.1 < 3)%nat
  ∧ (5 ≤ length record.2)%nat
  ∧ (∃ id_text id, record.2 !! 0%nat = Some id_text ∧ int id_text = Ok id)
  ∧ (∃ direction_text, record.2 !! 4%nat = Some direction_text
                       ∧ (direction_text = "req" ∨ direction_text = "resp")).

(** The library after the assignments of a list of entries. *)
Definition store_all (library : dict Message) (entries : list (Z * Message)) :
    dict Message :=
  foldl (λ (library : dict Message) (entry : Z * Message),
           dict_set library entry.1 entry.2)
        library entries.

(** For the examples: [str.strip] on blanks and [int] on unsigned decimal
    numerals. *)
Fixpoint strip_left (s : string) : string :=
  match s with
  | String " " s' => strip_left s'
  | _ => s
  end.

Fixpoint strip_right (s : string) : string :=
  match s with
  | EmptyString => EmptyString
  | String c s' =>
      match strip_right s' with
      | EmptyString => if bool_decide (c = " "%char) then EmptyString
                       else String c EmptyString
      | rest => String c rest
      end
  end.

Definition strip_blanks (s : string) : string := strip_right (strip_left s).

Definition digit_of (c : ascii) : option Z :=
  let n := Z.of_N (Ascii.N_of_ascii c) in
  if bool_decide (48 ≤ n ≤ 57) then Some (n - 48) else None.

Fixpoint decimal_from (acc : Z) (s : string) : result Z :=
  match s with
  | EmptyString => Ok acc
  | String c s' =>
      match digit_of c with
      | Some d => decimal_from (10 * acc + d) s'
      | None => Raise ValueError
      end
  end.

Definition decimal (s : string) : result Z :=
  match s with
  | EmptyString => Raise ValueError
  | _ => decimal_from 0 s
  end.

(** The file of the scenario. *)
Definition scenario_text : string :=
  String.concat (String newline EmptyString)
    ["1 : X : Y : login : req";
     "3:X:Z:ping:req";
     "#";
     "#2:Y:X:login-ack:resp";
     ""].

(** ** The scenario of the specification

    Three messages: a login request from X to Y, its acknowledgement from Y
    to X, and a ping request from X to Z. *)

Definition login : Message := mkMessage 1 "X" "Y" "login" REQ INITIAL.
Definition login_ack : Message := mkMessage 2 "Y" "X" "login-ack" RESP FINAL.
Definition ping : Message := mkMessage 3 "X" "Z" "ping" REQ INITIAL.

Definition scenario_library : dict Message :=
  [(1, login); (2, login_ack); (3, ping)].

(** The graph skeleton handed to the graph builder. *)
Definition scenario_skeleton : dict (gset Z) := [(1, ∅); (2, ∅); (3, ∅)].

Definition scenario_graph : dict (gset Z) := [(1, {[2]}); (2, ∅); (3, ∅)].

(** ** A chain of [k] messages

    The messages [1], ..., [k], each with the next one as its only
    successor; the last one is FINAL. *)

Definition chain_message (k i : Z) : Message :=
  mkMessage i "node" "node" "step" REQ
    (if bool_decide (i = k) then FINAL else INTERMEDIARY).

Definition chain_library (k : Z) : dict Message :=
  (λ i, (i, chain_message k i)) <$> seqZ 1 k.

Definition chain_graph (k : Z) : dict (gset Z) :=
  (λ i, (i, {[i + 1]})) <$> seqZ 1 k.

(** * Theorems *)

(** ** Causality predicate *)

Lemma causal_true_iff (a b : Message) :
  causal a b = true ↔
    ¬ (direction a = RESP ∧ direction b = REQ)
    ∧ destination a = origin b
    ∧ position a ≠ FINAL
    ∧ position b ≠ INITIAL
    ∧ id a ≠ id b.
Proof.
  unfold causal.
  rewrite negb_true_iff, !orb_false_iff, andb_false_iff, !bool_decide_eq_false.
  split.
  - intros [[[[Hd Hdst] Hf] Hi] Hid]. repeat split; try done.
    + intros [? ?]. destruct Hd; contradiction.
    + destruct (decide (destination a = origin b)); [done | contradiction].
  - intros (Hd & Hdst & Hf & Hi & Hid). repeat split; try done.
    + destruct (decide (direction a = RESP)); [right | left]; tauto.
    + tauto.
Qed.

(** C1: [causal a b] is true exactly when the five listed conditions hold
    together; operation names play no part; the predicate is irreflexive and
    is false when the destination of [a] is not the origin of [b], when [a]
    is FINAL and when [b] is INITIAL. *)
Theorem causal_characterisation :
  (∀ a b : Message,
      causal a b = true ↔
        ¬ (direction a = RESP ∧ direction b = REQ)
        ∧ destination a = origin b
        ∧ position a ≠ FINAL
        ∧ position b ≠ INITIAL
        ∧ id a ≠ id b)
  ∧ (∀ (a b : Message) (op_a op_b : string),
        causal (with_operation a op_a) (with_operation b op_b) = causal a b)
  ∧ (∀ m : Message, causal m m = false)
  ∧ (∀ a b : Message, destination a ≠ origin b → causal a b = false)
  ∧ (∀ a b : Message, position a = FINAL → causal a b = false)
  ∧ (∀ a b : Message, position b = INITIAL → causal a b = false).
Proof.
  split; [exact causal_true_iff |].
  split; [reflexivity |].
  repeat split; intros; apply not_true_is_false; rewrite causal_true_iff;
    intros (? & ? & ? & ? & ?); congruence.
Qed.

Lemma causal_characterisation_witness :
  causal login login_ack = true ∧ causal login_ack login = false
  ∧ causal login ping = false.
Proof.
  destruct causal_characterisation as (Hiff & _ & _ & Hdest & Hfinal & _).
  split; [| split].
  - apply Hiff. vm_compute. repeat split; try discriminate. intros [? _]. discriminate.
  - apply Hfinal. reflexivity.
  - apply Hdest. discriminate.
Defined.

(** ** Pair filter *)

Lemma list_index_absent (l : list Z) (x : Z) :
  x ∉ l → list_index l x = Raise ValueError.
Proof.
  induction l as [| y l IH]; intros Hx; simpl; [done |].
  apply not_elem_of_cons in Hx as [Hne Hx].
  rewrite bool_decide_eq_false_2 by congruence.
  by rewrite IH.
Qed.

Lemma list_index_first (l : list Z) (x : Z) :
  x ∈ l → ∃ i : nat, list_index l x = Ok (Z.of_nat i) ∧ first_at l x i.
Proof.
  induction l as [| y l IH]; intros Hx; [by apply elem_of_nil in Hx |].
  simpl. destruct (decide (y = x)) as [-> | Hne].
  - exists 0%nat. rewrite bool_decide_eq_true_2 by done.
    split; [done |]. split; [done | lia].
  - rewrite bool_decide_eq_false_2 by done.
    apply elem_of_cons in Hx as [-> | Hx]; [done |].
    destruct (IH Hx) as (i & -> & Hi & Hbefore).
    exists (S i). split; [f_equal; lia |].
    split; [done |].
    intros [| j] Hj; simpl; [congruence | apply Hbefore; lia].
Qed.

Lemma first_at_unique (l : list Z) (x : Z) (i j : nat) :
  first_at l x i → first_at l x j → i = j.
Proof.
  intros [Hi Hbi] [Hj Hbj].
  destruct (Nat.lt_trichotomy i j) as [Hlt | [Heq | Hgt]]; [| done |].
  - by apply Hbj in Hlt.
  - by apply Hbi in Hgt.
Qed.

Lemma first_at_elem (l : list Z) (x : Z) (i : nat) : first_at l x i → x ∈ l.
Proof. intros [Hi _]. by eapply list_elem_of_lookup_2. Qed.

Lemma pair_filter_both (s : list Z) (a b : Z) (i j : nat) :
  first_at s a i → first_at s b j →
  pair_filter s a b = Ok (bool_decide (Z.of_nat i + 1 = Z.of_nat j)).
Proof.
  intros Ha Hb. unfold pair_filter.
  rewrite !bool_decide_eq_true_2 by (by eapply first_at_elem). simpl.
  destruct (list_index_first s a) as (i' & -> & Hi'); [by eapply first_at_elem |].
  destruct (list_index_first s b) as (j' & -> & Hj'); [by eapply first_at_elem |].
  by rewrite (first_at_unique _ _ _ _ Ha Hi'), (first_at_unique _ _ _ _ Hb Hj').
Qed.

Lemma pair_filter_neither (s : list Z) (a b : Z) :
  a ∉ s → b ∉ s → pair_filter s a b = Ok true.
Proof.
  intros Ha Hb. unfold pair_filter.
  by rewrite (bool_decide_eq_false_2 _ Ha), (bool_decide_eq_false_2 _ Hb).
Qed.

(** C6: [pair_filter] never raises; it answers true exactly when neither id
    occurs in the sequence or the first occurrence of [a] is immediately
    followed by the first occurrence of [b]; it answers false when exactly
    one of the two ids occurs. *)
Theorem pair_filter_truth_table (s : list Z) (a b : Z) :
  (∃ r : bool, pair_filter s a b = Ok r)
  ∧ (pair_filter s a b = Ok true ↔
       ((a ∉ s) ∧ (b ∉ s)) ∨ (∃ i : nat, first_at s a i ∧ first_at s b (S i)))
  ∧ ((a ∈ s ∧ b ∉ s) ∨ ((a ∉ s) ∧ b ∈ s) → pair_filter s a b = Ok false).
Proof.
  destruct (decide (a ∈ s)) as [Ha | Ha]; destruct (decide (b ∈ s)) as [Hb | Hb].
  - destruct (list_index_first s a Ha) as (i & _ & Hi).
    destruct (list_index_first s b Hb) as (j & _ & Hj).
    rewrite (pair_filter_both s a b i j Hi Hj).
    split; [by eexists |]. split; [| tauto].
    split.
    + intros [= Heq%bool_decide_eq_true]. right. exists i.
      by replace (S i) with j by lia.
    + intros [[? _] | (i' & Hi' & Hj')]; [done |].
      rewrite (first_at_unique _ _ _ _ Hi Hi'), (first_at_unique _ _ _ _ Hj Hj').
      f_equal. apply bool_decide_eq_true_2. lia.
  - unfold pair_filter.
    rewrite (bool_decide_eq_true_2 _ Ha), (bool_decide_eq_false_2 _ Hb). simpl.
    split; [by eexists |]. split; [| done].
    split; [done |].
    intros [[? _] | (i & _ & Hj)]; [done | by apply first_at_elem in Hj].
  - unfold pair_filter.
    rewrite (bool_decide_eq_false_2 _ Ha), (bool_decide_eq_true_2 _ Hb). simpl.
    split; [by eexists |]. split; [| done].
    split; [done |].
    intros [[_ ?] | (i & Hi & _)]; [done | by apply first_at_elem in Hi].
  - rewrite (pair_filter_neither s a b Ha Hb).
    split; [by eexists |]. split; [| tauto].
    split; [by left | done].
Qed.

Lemma pair_filter_truth_table_witness :
  pair_filter [1; 2; 3] 1 3 = Ok false ∧ pair_filter [1; 2; 3] 4 3 = Ok false.
Proof.
  split.
  - reflexivity.
  - apply (pair_filter_truth_table [1; 2; 3] 4 3). right.
    split; compute_done.
Defined.

(** C10: queried with the degenerate pair [(a, a)], [pair_filter] answers
    false when [a] occurs in the sequence and true when it does not. *)
Theorem pair_filter_same_id (s : list Z) (a : Z) :
  (a ∈ s → pair_filter s a a = Ok false)
  ∧ (a ∉ s → pair_filter s a a = Ok true).
Proof.
  split; intros Ha.
  - destruct (list_index_first s a Ha) as (i & _ & Hi).
    rewrite (pair_filter_both s a a i i Hi Hi).
    f_equal. apply bool_decide_eq_false_2. lia.
  - by apply pair_filter_neither.
Qed.

Lemma pair_filter_same_id_witness :
  pair_filter [1; 2; 3] 2 2 = Ok false ∧ pair_filter [1; 2; 3] 5 5 = Ok true.
Proof.
  split.
  - apply (pair_filter_same_id [1; 2; 3] 2). compute_done.
  - apply (pair_filter_same_id [1; 2; 3] 5). compute_done.
Defined.

(** ** Dictionaries *)

Lemma dict_get_key {V} (d : dict V) (k : Z) :
  k ∈ dict_keys d ↔ ∃ v, dict_get d k = Ok v.
Proof.
  induction d as [| [k' v'] d IH]; simpl.
  - split; [by intros ?%elem_of_nil | by intros [? ?]].
  - rewrite elem_of_cons. case_bool_decide as Hk.
    + split; [by eexists | by left].
    + rewrite IH. split; [by intros [? | ?] | by right].
Qed.

Lemma dict_get_no_key {V} (d : dict V) (k : Z) :
  k ∉ dict_keys d → dict_get d k = Raise (KeyError k).
Proof.
  induction d as [| [k' v'] d IH]; simpl; [done |].
  intros [Hne Hk]%not_elem_of_cons.
  rewrite bool_decide_eq_false_2 by done. by apply IH.
Qed.

Lemma dict_get_raise {V} (d : dict V) (k : Z) (e : exn) :
  dict_get d k = Raise e → e = KeyError k ∧ k ∉ dict_keys d.
Proof.
  intros Hget. destruct (decide (k ∈ dict_keys d)) as [Hk | Hk].
  - apply dict_get_key in Hk as [v Hv]. congruence.
  - rewrite (dict_get_no_key d k Hk) in Hget. by injection Hget as <-.
Qed.

Lemma dict_keys_update {V} (d : dict V) (k : Z) (f : V → V) :
  dict_keys (dict_update d k f) = dict_keys d.
Proof.
  induction d as [| [k' v'] d IH]; simpl; [done |].
  case_bool_decide; simpl; [done | by rewrite IH].
Qed.

Lemma dict_get_update_eq {V} (d : dict V) (k : Z) (f : V → V) (v : V) :
  dict_get d k = Ok v → dict_get (dict_update d k f) k = Ok (f v).
Proof.
  induction d as [| [k' v'] d IH]; simpl; [done |].
  case_bool_decide as Hk; simpl.
  - rewrite bool_decide_eq_true_2 by done. by intros [= ->].
  - rewrite bool_decide_eq_false_2 by done. apply IH.
Qed.

Lemma dict_get_update_ne {V} (d : dict V) (k k' : Z) (f : V → V) :
  k ≠ k' → dict_get (dict_update d k f) k' = dict_get d k'.
Proof.
  intros Hne. induction d as [| [k'' v''] d IH]; simpl; [done |].
  case_bool_decide as Hk; simpl.
  - subst k''. by rewrite bool_decide_eq_false_2 by done.
  - by rewrite IH.
Qed.

Lemma dict_update_fixed {V} (d : dict V) (k : Z) (f : V → V) (v : V) :
  dict_get d k = Ok v → f v = v → dict_update d k f = d.
Proof.
  induction d as [| [k' v'] d IH]; simpl; [done |].
  case_bool_decide as Hk.
  - by intros [= ->] ->.
  - intros Hget Hf. by rewrite IH.
Qed.

(** ** Graph builder *)

Lemma has_edge_update (graph : dict (gset Z)) (a_id b_id k x : Z) :
  a_id ∈ dict_keys graph →
  has_edge (dict_update graph a_id (λ successors, {[b_id]} ∪ successors)) k x
  ↔ has_edge graph k x ∨ (k = a_id ∧ x = b_id).
Proof.
  intros [s Hs]%dict_get_key. unfold has_edge.
  destruct (decide (k = a_id)) as [-> | Hne].
  - rewrite (dict_get_update_eq _ _ _ _ Hs), Hs. split.
    + intros (s' & [= <-] & Hx). apply elem_of_union in Hx as [Hx | Hx].
      * apply elem_of_singleton in Hx. by right.
      * left. by exists s.
    + intros [(s' & [= <-] & Hx) | [_ ->]]; eexists; (split; [done |]); set_solver.
  - rewrite dict_get_update_ne by done. split; [by left | by intros [? | [? _]]].
Qed.

Lemma for_each_fixed {X S : Type} (xs : list X) (body : X → S → S * result unit)
    (s : S) :
  (∀ x, x ∈ xs → body x s = (s, Ok tt)) → for_each xs body s = (s, Ok tt).
Proof.
  induction xs as [| x xs IH]; intros Hbody; simpl; [done |].
  rewrite Hbody by apply list_elem_of_here.
  apply IH. intros y Hy. apply Hbody. by apply list_elem_of_further.
Qed.

(** One pass of the inner loop, for a fixed [a_id]. *)
Lemma relate_all (library : dict Message) (a_id : Z) (b_ids : list Z) :
  ∀ graph : dict (gset Z),
    a_id ∈ dict_keys graph →
    (∃ a, dict_get library a_id = Ok a) →
    (∀ b_id, b_id ∈ b_ids → ∃ b, dict_get library b_id = Ok b) →
    ∃ graph',
      for_each b_ids (λ b_id, relate library a_id b_id) graph = (graph', Ok tt)
      ∧ dict_keys graph' = dict_keys graph
      ∧ ∀ k x, has_edge graph' k x
               ↔ has_edge graph k x
                 ∨ (k = a_id ∧ x ∈ b_ids ∧ causal_ids library a_id x).
Proof.
  induction b_ids as [| b_id b_ids IH]; intros graph Hkey [a Ha] Hlib; simpl.
  - exists graph. repeat split; [by left |].
    intros [? | (_ & ?%elem_of_nil & _)]; done.
  - destruct (Hlib b_id) as [b Hb]; [apply list_elem_of_here |].
    assert (∃ g1, relate library a_id b_id graph = (g1, Ok tt)
                  ∧ dict_keys g1 = dict_keys graph
                  ∧ ∀ k x, has_edge g1 k x
                           ↔ has_edge graph k x
                             ∨ (k = a_id ∧ x = b_id ∧ causal a b = true))
      as (g1 & -> & Hkeys1 & Hedges1).
    { unfold relate. rewrite Ha, Hb. destruct (causal a b) eqn:Hc.
      - unfold add_successor.
        destruct (proj1 (dict_get_key graph a_id) Hkey) as [s ->].
        eexists. split; [done |]. split; [apply dict_keys_update |].
        intros k x. rewrite has_edge_update by done. tauto.
      - exists graph. repeat split; [tauto |].
        intros [? | (_ & _ & ?)]; done. }
    destruct (IH g1) as (graph' & -> & Hkeys' & Hedges').
    { by rewrite Hkeys1. }
    { by exists a. }
    { intros ? ?. apply Hlib. by apply list_elem_of_further. }
    exists graph'. split; [done |]. split; [congruence |].
    intros k x. rewrite Hedges', Hedges1, elem_of_cons.
    unfold causal_ids. split.
    + intros [[? | (-> & -> & Hc)] | (-> & ? & ?)]; [tauto | | tauto].
      right. split; [done |]. split; [by left |]. by exists a, b.
    + intros [? | (-> & [-> | ?] & Hc)]; [tauto | | tauto].
      destruct Hc as (a' & b' & Ha' & Hb' & Hc).
      left. right. repeat split. congruence.
Qed.

(** The outer loop over [a_ids], the inner loop ranging over [keys]. *)
Lemma relate_all_pairs (library : dict Message) (keys a_ids : list Z) :
  ∀ graph : dict (gset Z),
    (∀ a_id, a_id ∈ a_ids → a_id ∈ dict_keys graph) →
    (∀ k, k ∈ a_ids ∨ k ∈ keys → ∃ m, dict_get library k = Ok m) →
    ∃ graph',
      for_each a_ids
        (λ a_id, for_each keys (λ b_id, relate library a_id b_id)) graph
      = (graph', Ok tt)
      ∧ dict_keys graph' = dict_keys graph
      ∧ ∀ k x, has_edge graph' k x
               ↔ has_edge graph k x
                 ∨ (k ∈ a_ids ∧ x ∈ keys ∧ causal_ids library k x).
Proof.
  induction a_ids as [| a_id a_ids IH]; intros graph Hkeys Hlib; simpl.
  - exists graph. repeat split; [by left |].
    intros [? | (?%elem_of_nil & _)]; done.
  - destruct (relate_all library a_id keys graph) as (g1 & -> & Hkeys1 & Hedges1).
    { apply Hkeys, list_elem_of_here. }
    { apply Hlib. left. apply list_elem_of_here. }
    { intros ? ?. apply Hlib. by right. }
    destruct (IH g1) as (graph' & -> & Hkeys' & Hedges').
    { intros ? ?. rewrite Hkeys1. by apply Hkeys, list_elem_of_further. }
    { intros k [? | ?]; apply Hlib; [left; by apply list_elem_of_further | by right]. }
    exists graph'. split; [done |]. split; [congruence |].
    intros k x. rewrite Hedges', Hedges1, elem_of_cons. split.
    + intros [[? | (-> & ? & ?)] | (? & ? & ?)]; tauto.
    + intros [? | ([-> | ?] & ? & ?)]; tauto.
Qed.

(** *** Set objects that keys may share *)

Lemma holds_alter (sets : gmap nat (gset Z)) (r r' : nat) (b x : Z) :
  Shared.holds (alter (λ successors, {[b]} ∪ successors) r sets) r' x
  ↔ Shared.holds sets r' x ∨ (r' = r ∧ x = b ∧ r ∈ dom sets).
Proof.
  unfold Shared.holds. rewrite lookup_alter, elem_of_dom.
  destruct (decide (r = r')) as [-> | Hne].
  - destruct (sets !! r') as [s |] eqn:Hs; simpl.
    + split.
      * intros (s' & [= <-] & Hx). apply elem_of_union in Hx as [Hx | Hx].
        -- apply elem_of_singleton in Hx. right. by repeat split.
        -- left. by exists s.
      * intros [(s' & [= <-] & Hx) | (_ & -> & _)]; eexists;
          (split; [done |]); set_solver.
    + split; [by intros (? & ? & _) |].
      intros [(? & ? & _) | (_ & _ & [? ?])]; done.
  - split; [by left |]. intros [? | (-> & _)]; done.
Qed.

Lemma shared_relate_fixed (library : dict Message) (graph : dict nat)
    (sets : gmap nat (gset Z)) (a_id b_id : Z) (r : nat) :
  (∃ a, dict_get library a_id = Ok a) →
  (∃ b, dict_get library b_id = Ok b) →
  dict_get graph a_id = Ok r →
  (causal_ids library a_id b_id → r ∈ dom sets → Shared.holds sets r b_id) →
  Shared.relate library a_id b_id graph sets = (sets, Ok tt).
Proof.
  intros [a Ha] [b Hb] Hr Hheld. unfold Shared.relate, Shared.add_successor.
  rewrite Ha, Hb, Hr. destruct (causal a b) eqn:Hc; [| done].
  f_equal. apply alter_id. intros s Hs.
  destruct Hheld as (s' & Hs' & Hin); [by exists a, b | by apply elem_of_dom |].
  rewrite Hs in Hs'. injection Hs' as <-.
  by apply subseteq_union_1_L, singleton_subseteq_l.
Qed.

(** One pass of the inner loop on the store, for a fixed [a_id]. *)
Lemma shared_relate_all (library : dict Message) (graph : dict nat)
    (a_id : Z) (r : nat) (b_ids : list Z) :
  dict_get graph a_id = Ok r →
  (∃ a, dict_get library a_id = Ok a) →
  (∀ b_id, b_id ∈ b_ids → ∃ b, dict_get library b_id = Ok b) →
  ∀ sets : gmap nat (gset Z),
    ∃ sets',
      for_each b_ids (λ b_id, Shared.relate library a_id b_id graph) sets
      = (sets', Ok tt)
      ∧ dom sets' = dom sets
      ∧ ∀ r' x, Shared.holds sets' r' x
                ↔ Shared.holds sets r' x
                  ∨ (r' = r ∧ r ∈ dom sets ∧ x ∈ b_ids
                     ∧ causal_ids library a_id x).
Proof.
  intros Hr [a Ha].
  induction b_ids as [| b_id b_ids IH]; intros Hlib sets; simpl.
  - exists sets. split; [done |]. split; [done |]. intros r' x.
    split; [by left |]. intros [? | (_ & _ & ?%elem_of_nil & _)]; done.
  - destruct (Hlib b_id) as [b Hb]; [apply list_elem_of_here |].
    assert (∃ s1, Shared.relate library a_id b_id graph sets = (s1, Ok tt)
                  ∧ dom s1 = dom sets
                  ∧ ∀ r' x, Shared.holds s1 r' x
                            ↔ Shared.holds sets r' x
                              ∨ (r' = r ∧ r ∈ dom sets ∧ x = b_id
                                 ∧ causal a b = true))
      as (s1 & -> & Hdom1 & Hheld1).
    { unfold Shared.relate, Shared.add_successor. rewrite Ha, Hb, Hr.
      destruct (causal a b) eqn:Hc.
      - eexists. split; [done |]. split; [apply dom_alter_L |].
        intros r' x. rewrite holds_alter. tauto.
      - exists sets. split; [done |]. split; [done |]. intros r' x.
        split; [by left |]. intros [? | (_ & _ & _ & ?)]; done. }
    destruct (IH (λ b' Hb', Hlib b' (list_elem_of_further _ _ _ Hb')) s1)
      as (sets' & -> & Hdom' & Hheld').
    exists sets'. split; [done |]. split; [congruence |].
    intros r' x. rewrite Hheld', Hheld1, Hdom1, elem_of_cons.
    unfold causal_ids. split.
    + intros [[? | (-> & ? & -> & Hc)] | (-> & ? & ? & ?)]; [tauto | | tauto].
      right. do 3 (split; [tauto |]). by exists a, b.
    + intros [? | (-> & ? & [-> | ?] & Hc)]; [tauto | | tauto].
      destruct Hc as (a' & b' & Ha' & Hb' & Hc).
      left. right. do 3 (split; [done |]). congruence.
Qed.

(** The outer loop over [a_ids], the inner loop ranging over [keys]. *)
Lemma shared_relate_all_pairs (library : dict Message) (graph : dict nat)
    (keys a_ids : list Z) :
  (∀ a_id, a_id ∈ a_ids → a_id ∈ dict_keys graph) →
  (∀ k, k ∈ a_ids ∨ k ∈ keys → ∃ m, dict_get library k = Ok m) →
  ∀ sets : gmap nat (gset Z),
    ∃ sets',
      for_each a_ids
        (λ a_id, for_each keys (λ b_id, Shared.relate library a_id b_id graph))
        sets
      = (sets', Ok tt)
      ∧ dom sets' = dom sets
      ∧ ∀ r x, Shared.holds sets' r x
               ↔ Shared.holds sets r x
                 ∨ (r ∈ dom sets
                    ∧ ∃ a_id, a_id ∈ a_ids ∧ dict_get graph a_id = Ok r
                              ∧ x ∈ keys ∧ causal_ids library a_id x).
Proof.
  induction a_ids as [| a_id a_ids IH]; intros Hkeys Hlib sets; simpl.
  - exists sets. split; [done |]. split; [done |]. intros r x.
    split; [by left |]. intros [? | (_ & ? & ?%elem_of_nil & _)]; done.
  - destruct (proj1 (dict_get_key graph a_id)) as [ra Hra].
    { apply Hkeys, list_elem_of_here. }
    destruct (shared_relate_all library graph a_id ra keys Hra) with (sets := sets)
      as (s1 & -> & Hdom1 & Hheld1).
    { apply Hlib. left. apply list_elem_of_here. }
    { intros ? ?. apply Hlib. by right. }
    destruct (IH (λ a' Ha', Hkeys a' (list_elem_of_further _ _ _ Ha'))) with (sets := s1)
      as (sets' & -> & Hdom' & Hheld').
    { intros k [? | ?]; apply Hlib; [left; by apply list_elem_of_further | by right]. }
    exists sets'. split; [done |]. split; [congruence |].
    intros r x. rewrite Hheld', Hheld1, Hdom1. split.
    + intros [[? | (-> & ? & ? & ?)] | (? & a' & Ha' & ? & ? & ?)]; [tauto | |].
      * right. split; [done |]. exists a_id.
        split; [apply list_elem_of_here | done].
      * right. split; [done |]. exists a'.
        split; [by apply list_elem_of_further | done].
    + intros [? | (? & a' & [-> | Ha']%elem_of_cons & Hr & ? & ?)]; [tauto | |].
      * left. right. rewrite Hra in Hr. injection Hr as <-. done.
      * right. split; [done |]. by exists a'.
Qed.

(** On three keys that share one set object the successor [2], found for
    the key [1], is a successor of the key [2] as well, whose message
    causes nothing. *)
Lemma shared_set_counterexample :
  dict_keys shared_graph = dict_keys scenario_library
  ∧ Shared.build_relationships shared_graph scenario_library shared_sets
    = ({[0%nat := {[2]}]}, Ok tt)
  ∧ Shared.has_edge shared_graph {[0%nat := {[2]}]} 2 2
  ∧ ¬ causal_ids scenario_library 2 2
  ∧ ¬ Shared.has_edge shared_graph shared_sets 2 2.
Proof.
  split; [done |]. split; [by vm_compute |]. split; [| split].
  - exists 0%nat. split; [done |]. exists {[2]}.
    split; [done | by apply elem_of_singleton].
  - intros (a & b & [= <-] & [= <-] & Hc). done.
  - intros (r & [= <-] & s & Hs & Hin).
    unfold shared_sets in Hs.
    apply lookup_singleton_Some in Hs as [_ <-]. by apply not_elem_of_empty in Hin.
Qed.

(** C7, as the code has it: when every key of the graph is in the library,
    [build_relationships] succeeds and a second run changes no set, whether
    keys share set objects or not. For keys [a_id] and [b_id], [b_id] is a
    successor of [a_id] afterwards exactly when it was one before or
    [causal] holds of the message of a key that refers to the set object of
    [a_id] and the message of [b_id]; when no two keys refer to one set
    object, exactly when [causal] holds of the messages of [a_id] and
    [b_id] or [b_id] was a successor before. *)
Theorem build_relationships_shared_idempotent (graph : dict nat)
    (sets : gmap nat (gset Z)) (library : dict Message) :
  (∀ k, k ∈ dict_keys graph → ∃ m, dict_get library k = Ok m) →
  Shared.allocated graph sets →
  ∃ sets',
    Shared.build_relationships graph library sets = (sets', Ok tt)
    ∧ Shared.build_relationships graph library sets' = (sets', Ok tt)
    ∧ (∀ a_id b_id,
         a_id ∈ dict_keys graph → b_id ∈ dict_keys graph →
         (Shared.has_edge graph sets' a_id b_id
          ↔ (∃ a_id', Shared.same_set graph a_id a_id'
                      ∧ causal_ids library a_id' b_id)
            ∨ Shared.has_edge graph sets a_id b_id))
    ∧ ((∀ a_id a_id', Shared.same_set graph a_id a_id' → a_id = a_id') →
       ∀ a_id b_id,
         a_id ∈ dict_keys graph → b_id ∈ dict_keys graph →
         (Shared.has_edge graph sets' a_id b_id
          ↔ causal_ids library a_id b_id ∨ Shared.has_edge graph sets a_id b_id)).
Proof.
  intros Hlib Halloc. unfold Shared.build_relationships.
  destruct (shared_relate_all_pairs library graph (dict_keys graph)
              (dict_keys graph)) with (sets := sets)
    as (sets' & Hrun & Hdom & Hheld); [done | |].
  { intros k [? | ?]; by apply Hlib. }
  assert (∀ a_id b_id,
            a_id ∈ dict_keys graph → b_id ∈ dict_keys graph →
            (Shared.has_edge graph sets' a_id b_id
             ↔ (∃ a_id', Shared.same_set graph a_id a_id'
                         ∧ causal_ids library a_id' b_id)
               ∨ Shared.has_edge graph sets a_id b_id)) as Hedges.
  { intros a_id b_id Ha Hb. unfold Shared.has_edge, Shared.same_set. split.
    - intros (r & Hr & [? | (_ & a' & _ & Hr' & _ & Hc)]%Hheld).
      + right. by exists r.
      + left. exists a'. split; [by exists r | done].
    - intros [(a' & (r & Hr & Hr') & Hc) | (r & Hr & ?)].
      + exists r. split; [done |]. apply Hheld. right.
        split; [by apply elem_of_dom, (Halloc a_id) |].
        exists a'. split; [apply dict_get_key; by exists r |]. done.
      + exists r. split; [done |]. apply Hheld. by left. }
  exists sets'. split; [done |]. split; [| split; [done |]].
  - apply for_each_fixed. intros a_id Ha.
    apply for_each_fixed. intros b_id Hb.
    destruct (proj1 (dict_get_key graph a_id) Ha) as [r Hr].
    apply (shared_relate_fixed _ _ _ _ _ r); [by apply Hlib | by apply Hlib | done |].
    intros Hc Hin. apply Hheld. right. rewrite <- Hdom.
    split; [done |]. by exists a_id.
  - intros Howned a_id b_id Ha Hb. rewrite (Hedges a_id b_id Ha Hb). split.
    + intros [(a' & Hsame & Hc) | ?]; [| by right].
      left. by rewrite (Howned a_id a' Hsame).
    + intros [Hc | ?]; [| by right].
      left. exists a_id. split; [| done].
      destruct (proj1 (dict_get_key graph a_id) Ha) as [r Hr]. by exists r.
Qed.

Lemma owned_graph_allocated : Shared.allocated owned_graph owned_sets.
Proof.
  intros k r. unfold owned_graph. simpl.
  repeat (case_bool_decide; [intros [= <-]; by eexists |]). done.
Qed.

Lemma build_relationships_shared_idempotent_witness :
  ∃ sets',
    Shared.build_relationships owned_graph scenario_library owned_sets
    = (sets', Ok tt)
    ∧ Shared.build_relationships owned_graph scenario_library sets' = (sets', Ok tt).
Proof.
  destruct (build_relationships_shared_idempotent owned_graph owned_sets
              scenario_library) as (sets' & Hrun & Hagain & _).
  - intros k Hk. by apply dict_get_key.
  - apply owned_graph_allocated.
  - by exists sets'.
Defined.

Example build_relationships_owned :
  Shared.build_relationships owned_graph scenario_library owned_sets
  = ({[0%nat := {[2]}; 1%nat := ∅; 2%nat := ∅]}, Ok tt).
Proof. by vm_compute. Qed.

Example build_relationships_scenario :
  build_relationships scenario_skeleton scenario_library = (scenario_graph, Ok tt).
Proof. by vm_compute. Qed.

(** ** Sequence projector *)

Section sorting.
Context {A : Type} (key : A → Z).

Lemma insert_by_key_perm (x : A) (l : list A) : insert_by_key key x l ≡ₚ x :: l.
Proof.
  induction l as [| y l IH]; simpl; [done |].
  case_bool_decide; [done |]. rewrite IH. apply perm_swap.
Qed.

Lemma sort_by_key_perm (l : list A) : sort_by_key key l ≡ₚ l.
Proof.
  induction l as [| x l IH]; simpl; [done |].
  by rewrite insert_by_key_perm, IH.
Qed.

Lemma insert_by_key_sorted (x : A) (l : list A) :
  StronglySorted (λ a b, key a ≤ key b) l →
  StronglySorted (λ a b, key a ≤ key b) (insert_by_key key x l).
Proof.
  induction 1 as [| y l Hsorted IH Hall]; simpl.
  - by repeat constructor.
  - case_bool_decide as Hle.
    + constructor; [by constructor |].
      constructor; [done |].
      eapply Forall_impl; [exact Hall |]. simpl. intros. lia.
    + constructor; [done |].
      rewrite insert_by_key_perm. constructor; [lia | done].
Qed.

Lemma sort_by_key_sorted (l : list A) :
  StronglySorted (λ a b, key a ≤ key b) (sort_by_key key l).
Proof.
  induction l as [| x l IH]; simpl; [constructor |].
  by apply insert_by_key_sorted.
Qed.

(** Stability: the elements of any one key are in the order they had. *)
Lemma insert_by_key_stable (n : Z) (x : A) (l : list A) :
  filter (λ a, key a = n) (insert_by_key key x l)
  = filter (λ a, key a = n) (x :: l).
Proof.
  induction l as [| y l IH]; simpl; [done |].
  case_bool_decide as Hle; [done |].
  rewrite filter_cons, IH, !filter_cons.
  repeat case_decide; try done. lia.
Qed.

Lemma sort_by_key_stable (n : Z) (l : list A) :
  filter (λ a, key a = n) (sort_by_key key l) = filter (λ a, key a = n) l.
Proof.
  induction l as [| x l IH]; simpl; [done |].
  by rewrite insert_by_key_stable, !filter_cons, IH.
Qed.

(** Two lists sorted by key that agree on the elements of every key, in
    their order, are equal. *)
Lemma sorted_stable_eq (l1 : list A) :
  ∀ l2,
    StronglySorted (λ a b, key a ≤ key b) l1 →
    StronglySorted (λ a b, key a ≤ key b) l2 →
    (∀ n, filter (λ a, key a = n) l1 = filter (λ a, key a = n) l2) →
    l1 = l2.
Proof.
  induction l1 as [| x l1 IH]; intros [| y l2] Hs1 Hs2 Hfilter; [done | | |].
  - specialize (Hfilter (key y)). by rewrite filter_cons_True in Hfilter.
  - specialize (Hfilter (key x)). by rewrite filter_cons_True in Hfilter.
  - apply StronglySorted_inv in Hs1 as [Hs1 Hx].
    apply StronglySorted_inv in Hs2 as [Hs2 Hy].
    assert (key x = key y) as Hkey.
    { destruct (decide (key x = key y)) as [| Hne]; [done |]. exfalso.
      assert (y ∈ l1) as Hy1.
      { pose proof (Hfilter (key y)) as Hf.
        rewrite filter_cons_False, filter_cons_True in Hf by done.
        eapply (list_elem_of_filter (λ a, key a = key y)).
        rewrite Hf. apply list_elem_of_here. }
      assert (x ∈ l2) as Hx2.
      { pose proof (Hfilter (key x)) as Hf.
        rewrite filter_cons_True, filter_cons_False in Hf by done.
        eapply (list_elem_of_filter (λ a, key a = key x)).
        rewrite <- Hf. apply list_elem_of_here. }
      rewrite Forall_forall in Hx, Hy.
      specialize (Hx y Hy1). specialize (Hy x Hx2). lia. }
    assert (x = y) as <-.
    { pose proof (Hfilter (key x)) as Hf.
      rewrite !filter_cons_True in Hf by done. congruence. }
    f_equal. apply IH; [done | done |].
    intros n. specialize (Hfilter n). rewrite !filter_cons in Hfilter.
    case_decide; congruence.
Qed.

(** The result of a stable ascending sort is determined. *)
Lemma stable_sort_unique (l sorted : list A) :
  StronglySorted (λ a b, key a ≤ key b) sorted →
  (∀ n, filter (λ a, key a = n) sorted = filter (λ a, key a = n) l) →
  sorted = sort_by_key key l.
Proof.
  intros Hsorted Hstable. apply sorted_stable_eq; [done | |].
  - apply sort_by_key_sorted.
  - intros n. by rewrite sort_by_key_stable.
Qed.
End sorting.

Section first_occurrences.
Context {A : Type} `{EqDecision A}.

Lemma first_occurrences_elem (l : list A) (x : A) :
  x ∈ first_occurrences l ↔ x ∈ l.
Proof.
  induction l as [| y l IH]; simpl; [done |].
  rewrite !elem_of_cons, list_elem_of_filter, IH.
  destruct (decide (x = y)); tauto.
Qed.

Lemma first_occurrences_NoDup (l : list A) : NoDup (first_occurrences l).
Proof.
  induction l as [| y l IH]; simpl; [constructor |].
  constructor; [| by apply NoDup_filter].
  rewrite list_elem_of_filter. tauto.
Qed.

(** A later copy of an element already met is dropped. *)
Lemma first_occurrences_snoc (l : list A) (x : A) :
  first_occurrences (l ++ [x])
  = first_occurrences l ++ (if decide (x ∈ l) then [] else [x]).
Proof.
  induction l as [| y l IH]; simpl.
  - done.
  - rewrite IH, filter_app. f_equal. f_equal.
    destruct (decide (x = y)) as [-> | Hne].
    + rewrite (decide_True (P := y ∈ y :: l)) by apply list_elem_of_here.
      case_decide; [done |]. by rewrite filter_cons_False by tauto.
    + destruct (decide (x ∈ l)) as [Hin | Hin].
      * by rewrite decide_True by by apply list_elem_of_further.
      * rewrite decide_False by (rewrite elem_of_cons; tauto).
        by rewrite filter_cons_True.
Qed.
End first_occurrences.

Lemma sub_sequence_loop (whitelist : gset Z) (sequence new_sequence : list Z) :
  foldl (λ (new_sequence : list Z) (id : Z),
           if bool_decide (id ∈ whitelist) then new_sequence ++ [id]
           else new_sequence)
        new_sequence sequence
  = new_sequence ++ sub_sequence whitelist sequence.
Proof.
  revert new_sequence. unfold sub_sequence.
  induction sequence as [| x sequence IH]; intros acc; simpl.
  - by rewrite app_nil_r.
  - rewrite IH, filter_cons. case_bool_decide.
    + rewrite decide_True by done. by rewrite <- app_assoc.
    + by rewrite decide_False by done.
Qed.

Lemma len_gt_1 {A : Type} (l : list A) : len l > 1 ↔ 2 ≤ len l.
Proof. unfold len. lia. Qed.

(** The loop of [project_sequences] computes the first occurrences of the
    sub-sequences of two elements or more. *)
Lemma project_loop (whitelist : gset Z) (sequences : list (list Z)) :
  foldl (λ (new_sequences : list (list Z)) (sequence : list Z),
           let new_sequence :=
             foldl (λ (new_sequence : list Z) (id : Z),
                      if bool_decide (id ∈ whitelist) then new_sequence ++ [id]
                      else new_sequence)
                   [] sequence in
           if bool_decide (len new_sequence > 1)
              && negb (bool_decide (new_sequence ∈ new_sequences))
           then new_sequences ++ [new_sequence]
           else new_sequences)
        [] sequences
  = first_occurrences
      (filter (λ s : list Z, 2 ≤ len s) (sub_sequence whitelist <$> sequences)).
Proof.
  induction sequences as [| sequence sequences IH] using rev_ind; [done |].
  rewrite foldl_snoc, IH, fmap_snoc, filter_app. cbv zeta.
  rewrite sub_sequence_loop. simpl.
  set (t := sub_sequence whitelist sequence).
  set (candidates := filter _ (_ <$> sequences)).
  rewrite filter_cons, filter_nil.
  destruct (decide (2 ≤ len t)) as [Hlen | Hlen].
  - rewrite (bool_decide_eq_true_2 (len t > 1)) by by apply len_gt_1.
    rewrite first_occurrences_snoc. simpl.
    destruct (decide (t ∈ candidates)) as [Hin | Hin].
    + rewrite bool_decide_eq_true_2 by by apply first_occurrences_elem.
      simpl. by rewrite app_nil_r.
    + rewrite bool_decide_eq_false_2; [done |].
      by rewrite first_occurrences_elem.
  - rewrite (bool_decide_eq_false_2 (len t > 1)) by by rewrite len_gt_1.
    simpl. by rewrite app_nil_r.
Qed.

(** C5: [project_sequences] is the projector of the specification. Its
    output holds exactly the whitelisted sub-sequences, in their order, of two
    elements or more; no sub-sequence twice; sorted by length; and among the
    sub-sequences of one length the order is that of their first appearance
    in the input. *)
Theorem project_sequences_spec (sequences : list (list Z)) (whitelist : gset Z) :
  let candidates :=
    filter (λ s : list Z, 2 ≤ len s) (sub_sequence whitelist <$> sequences) in
  let output := project_sequences sequences whitelist in
  output = spec_project_sequences sequences whitelist
  ∧ (∀ s : list Z,
       sub_sequence whitelist s `sublist_of` s
       ∧ ∀ x, x ∈ sub_sequence whitelist s ↔ x ∈ s ∧ x ∈ whitelist)
  ∧ (∀ t : list Z,
       t ∈ output ↔
       ∃ s, s ∈ sequences ∧ t = sub_sequence whitelist s ∧ 2 ≤ len t)
  ∧ NoDup output
  ∧ StronglySorted (λ t u : list Z, len t ≤ len u) output
  ∧ (∀ n : Z,
       filter (λ t : list Z, len t = n) output
       = filter (λ t : list Z, len t = n) (first_occurrences candidates))
  ∧ (∀ (before : list (list Z)) (t : list Z),
       first_occurrences (before ++ [t])
       = first_occurrences before ++ (if decide (t ∈ before) then [] else [t])).
Proof.
  intros candidates output.
  assert (output = spec_project_sequences sequences whitelist) as Hspec.
  { unfold output, project_sequences, spec_project_sequences.
    cbv zeta. by rewrite project_loop. }
  split; [done |]. rewrite Hspec. unfold spec_project_sequences.
  split.
  { intros s. split; [apply sublist_filter |].
    intros x. unfold sub_sequence. rewrite list_elem_of_filter. tauto. }
  split.
  { intros t.
    rewrite sort_by_key_perm, first_occurrences_elem, list_elem_of_filter,
      list_elem_of_fmap.
    split.
    - intros [Hlen (s & -> & Hs)]. by exists s.
    - intros (s & Hs & -> & Hlen). split; [done | by exists s]. }
  split; [rewrite sort_by_key_perm; apply first_occurrences_NoDup |].
  split; [apply sort_by_key_sorted |].
  split; [intros n; apply sort_by_key_stable |].
  intros before t. apply first_occurrences_snoc.
Qed.

Lemma project_sequences_spec_witness :
  NoDup (project_sequences [[1; 2; 3]; [1; 3]; [2]; [3; 1; 2]] {[1; 3]})
  ∧ StronglySorted (λ t u : list Z, len t ≤ len u)
      (project_sequences [[1; 2; 3]; [1; 3]; [2]; [3; 1; 2]] {[1; 3]}).
Proof.
  destruct (project_sequences_spec [[1; 2; 3]; [1; 3]; [2]; [3; 1; 2]] {[1; 3]})
    as (_ & _ & _ & Hnodup & Hsorted & _).
  by split.
Defined.

Example project_sequences_example :
  project_sequences [[1; 2; 3; 4]; [1; 3]; [2; 5]; [4; 3; 1]; [1; 2; 3]] {[1; 3; 4]}
  = [[1; 3]; [1; 3; 4]; [4; 3; 1]].
Proof. by vm_compute. Qed.

(** ** Sequence enumerator *)

(** *** Loops *)

Lemma for_each_fuel_total {X S : Type} (xs : list X)
    (body : X → S → option (S * result unit)) :
  (∀ x s, x ∈ xs → is_Some (body x s)) →
  ∀ s, is_Some (for_each_fuel xs body s).
Proof.
  induction xs as [| x xs IH]; intros Hbody s; simpl; [done |].
  destruct (Hbody x s) as [[s' [[] | e]] ->]; [apply list_elem_of_here | | done].
  apply IH. intros y s'' Hy. apply Hbody. by apply list_elem_of_further.
Qed.

Lemma for_each_fuel_ext {X S : Type} (xs : list X)
    (body body' : X → S → option (S * result unit)) :
  (∀ x s out, x ∈ xs → body x s = Some out → body' x s = Some out) →
  ∀ s out, for_each_fuel xs body s = Some out → for_each_fuel xs body' s = Some out.
Proof.
  induction xs as [| x xs IH]; intros Hbody s out; simpl; [done |].
  destruct (body x s) as [[s' r] |] eqn:Hx; [| done].
  rewrite (Hbody x s (s', r)) by (done || apply list_elem_of_here).
  destruct r as [[] | e]; [| done].
  apply IH. intros y s'' out' Hy. apply Hbody. by apply list_elem_of_further.
Qed.

(** What a loop over a list that is only appended to has done when it ends:
    either every body ran to its end, each from a state that extends the
    initial one to a state that the final one extends, or one body raised
    the exception that ended the loop. *)
Lemma for_each_fuel_inv {X A : Type} (xs : list X)
    (body : X → list A → option (list A * result unit)) :
  (∀ x d d' r, x ∈ xs → body x d = Some (d', r) → d `prefix_of` d') →
  ∀ dest dest' r,
    for_each_fuel xs body dest = Some (dest', r) →
    dest `prefix_of` dest'
    ∧ ((r = Ok tt
        ∧ ∀ x, x ∈ xs →
               ∃ d1 d2, body x d1 = Some (d2, Ok tt)
                        ∧ dest `prefix_of` d1 ∧ d2 `prefix_of` dest')
       ∨ (∃ e x d1 d2, r = Raise e ∧ x ∈ xs ∧ body x d1 = Some (d2, Raise e))).
Proof.
  induction xs as [| x xs IH]; intros Hmono dest dest' r; simpl.
  - intros [= <- <-]. split; [done |]. left. split; [done |].
    by intros x ?%elem_of_nil.
  - destruct (body x dest) as [[d [[] | e]] |] eqn:Hx; [| | done].
    + intros Hrest.
      assert (dest `prefix_of` d) as Hd.
      { eapply Hmono; [apply list_elem_of_here | done]. }
      apply IH in Hrest as [Hpre Hcases].
      2: { intros y ? ? ? Hy. apply Hmono. by apply list_elem_of_further. }
      split; [by etrans |].
      destruct Hcases as [[-> Hall] | (e & y & d1 & d2 & -> & Hy & Hbody)].
      * left. split; [done |]. intros y [-> | Hy]%elem_of_cons.
        -- by exists dest, d.
        -- destruct (Hall y Hy) as (d1 & d2 & ? & ? & ?).
           exists d1, d2. repeat split; [done | by etrans | done].
      * right. exists e, y, d1, d2. repeat split; [| done].
        by apply list_elem_of_further.
    + intros [= <- <-]. split.
      { eapply Hmono; [apply list_elem_of_here | done]. }
      right. exists e, x, dest, d. repeat split; [| done].
      apply list_elem_of_here.
Qed.

Lemma for_each_fuel_Forall {X A : Type} (P : A → Prop) (xs : list X)
    (body : X → list A → option (list A * result unit)) :
  (∀ x d d' r, x ∈ xs → body x d = Some (d', r) → Forall P d → Forall P d') →
  ∀ dest dest' r,
    for_each_fuel xs body dest = Some (dest', r) → Forall P dest → Forall P dest'.
Proof.
  induction xs as [| x xs IH]; intros Hbody dest dest' r; simpl.
  - by intros [= <- <-].
  - destruct (body x dest) as [[d [[] | e]] |] eqn:Hx; [| | done].
    + intros Hrest Hdest. eapply IH; [| done |].
      * intros y ? ? ? Hy. apply Hbody. by apply list_elem_of_further.
      * eapply Hbody; [apply list_elem_of_here | done | done].
    + intros [= <- <-] Hdest.
      eapply Hbody; [apply list_elem_of_here | done | done].
Qed.

(** *** The recursion *)

Section recursion.
Variable set_iter : gset Z → list Z.
Hypothesis set_iter_perm : ∀ X : gset Z, set_iter X ≡ₚ elements X.
Variables (max_depth : Z) (graph : dict (gset Z)) (library : dict Message).

Local Abbreviation rbs fuel starting_id accumulated dest :=
  (recursive_build_sequences set_iter fuel starting_id accumulated dest
     max_depth graph library).

Lemma set_iter_elem (X : gset Z) (x : Z) : x ∈ set_iter X ↔ x ∈ X.
Proof. by rewrite set_iter_perm, elem_of_elements. Qed.

Lemma len_snoc (acc : list Z) (x : Z) : len (acc ++ [x]) = len acc + 1.
Proof. unfold len. rewrite length_app. simpl. lia. Qed.

Lemma len_app (l k : list Z) : len (l ++ k) = len l + len k.
Proof. unfold len. rewrite length_app. lia. Qed.

Lemma len_cons (x : Z) (l : list Z) : len (x :: l) = len l + 1.
Proof. unfold len. simpl. lia. Qed.

Lemma len_nonneg (l : list Z) : 0 ≤ len l.
Proof. unfold len. lia. Qed.

(** One unfolding of the recursion, read off the source. *)
Lemma rbs_unfold (fuel : nat) (starting_id : Z) (accumulated : list Z)
    (dest : list (list Z)) :
  rbs (S fuel) starting_id accumulated dest =
    if bool_decide (starting_id ∈ accumulated) then Some (dest, Ok tt)
    else if bool_decide (len (accumulated ++ [starting_id]) > max_depth)
    then Some (dest, Ok tt)
    else match dict_get library starting_id with
         | Raise e => Some (dest, Raise e)
         | Ok m =>
             if bool_decide (position m = FINAL)
             then Some (dest ++ [accumulated ++ [starting_id]], Ok tt)
             else match dict_get graph starting_id with
                  | Raise e => Some (dest, Raise e)
                  | Ok successors =>
                      for_each_fuel (set_iter successors)
                        (λ next_id d, rbs fuel next_id (accumulated ++ [starting_id]) d)
                        dest
                  end
         end.
Proof. reflexivity. Qed.

(** With [max_depth + 1] units of fuel or more the recursion ends. *)
Lemma rbs_fuel_enough (fuel : nat) :
  ∀ starting_id accumulated dest,
    (Z.to_nat max_depth ≤ fuel + length accumulated)%nat →
    is_Some (rbs (S fuel) starting_id accumulated dest).
Proof.
  induction fuel as [| fuel IH]; intros start acc dest Hfuel;
    rewrite rbs_unfold; repeat case_bool_decide; try done;
    destruct (dict_get library start) as [m | e]; try done;
    case_bool_decide; try done;
    destruct (dict_get graph start) as [successors | e]; try done.
  - rewrite len_snoc in *. unfold len in *. lia.
  - apply for_each_fuel_total. intros next_id d _. apply IH.
    rewrite length_app. simpl. lia.
Qed.

(** More fuel does not change the outcome. *)
Lemma rbs_fuel_mono (fuel : nat) :
  ∀ fuel' starting_id accumulated dest out,
    (fuel ≤ fuel')%nat →
    rbs fuel starting_id accumulated dest = Some out →
    rbs fuel' starting_id accumulated dest = Some out.
Proof.
  induction fuel as [| fuel IH]; intros fuel' start acc dest out Hle; [done |].
  destruct fuel' as [| fuel']; [lia |].
  rewrite !rbs_unfold. repeat case_bool_decide; try done.
  destruct (dict_get library start) as [m | e]; try done.
  case_bool_decide; try done.
  destruct (dict_get graph start) as [successors | e]; try done.
  apply for_each_fuel_ext. intros next_id d out' _. apply IH. lia.
Qed.

(** The destination list is only appended to. *)
Lemma rbs_prefix (fuel : nat) :
  ∀ starting_id accumulated dest dest' r,
    rbs fuel starting_id accumulated dest = Some (dest', r) →
    dest `prefix_of` dest'.
Proof.
  induction fuel as [| fuel IH]; intros start acc dest dest' r; [done |].
  rewrite rbs_unfold. repeat case_bool_decide; try by intros [= <- <-].
  destruct (dict_get library start) as [m | e]; try by intros [= <- <-].
  case_bool_decide; [intros [= <- <-]; by apply prefix_app_r |].
  destruct (dict_get graph start) as [successors | e]; try by intros [= <- <-].
  intros Hloop. eapply for_each_fuel_inv; [| exact Hloop].
  intros next_id d d' r' _. apply IH.
Qed.

(** Soundness: whatever holds of the sequences in the destination list and
    of every chain that extends the accumulated one through [starting_id]
    to a FINAL message, without a repetition and within the depth bound,
    holds of the sequences in the destination list afterwards. *)
Lemma rbs_sound (P : list Z → Prop) (fuel : nat) :
  ∀ starting_id accumulated dest dest' r,
    rbs fuel starting_id accumulated dest = Some (dest', r) →
    Forall P dest →
    (∀ p, path_to_final library graph (starting_id :: p) →
          starting_id ∉ accumulated →
          (NoDup accumulated → NoDup (accumulated ++ starting_id :: p)) →
          len (accumulated ++ starting_id :: p) ≤ max_depth →
          P (accumulated ++ starting_id :: p)) →
    Forall P dest'.
Proof.
  induction fuel as [| fuel IH]; intros start acc dest dest' r; [done |].
  rewrite rbs_unfold.
  case_bool_decide as Hcycle; [by intros [= <- <-] |].
  case_bool_decide as Hdepth; [by intros [= <- <-] |].
  destruct (dict_get library start) as [m | e] eqn:Hm; [| by intros [= <- <-]].
  case_bool_decide as Hfinal.
  - intros [= <- <-] Hdest HP. apply Forall_app. split; [done |].
    apply Forall_singleton, HP; [by eapply path_final | done | | lia].
    intros Hacc. apply NoDup_app. repeat split; [done | | apply NoDup_singleton].
    intros x Hx ->%list_elem_of_singleton. done.
  - destruct (dict_get graph start) as [successors | e] eqn:Hs;
      [| by intros [= <- <-]].
    intros Hloop Hdest HP.
    eapply for_each_fuel_Forall; [| exact Hloop | exact Hdest].
    intros next_id d d' r' Hnext Hbody Hd.
    eapply IH; [exact Hbody | exact Hd |].
    intros p Hpath Hfresh Hnodup Hlen.
    rewrite <- app_assoc in *. simpl in *.
    apply HP; [| done | | done].
    + eapply path_step; [done | done | | done].
      exists successors. split; [done |]. by apply set_iter_elem.
    + intros Hacc. apply Hnodup. apply NoDup_app.
      repeat split; [done | | apply NoDup_singleton].
      intros x Hx ->%list_elem_of_singleton. done.
Qed.

Lemma chain_fresh (acc : list Z) (x : Z) (p : list Z) :
  NoDup (acc ++ x :: p) → x ∉ acc.
Proof.
  intros [_ [Hdisjoint _]]%NoDup_app Hx.
  apply (Hdisjoint x Hx), list_elem_of_here.
Qed.

Lemma chain_depth (acc : list Z) (x : Z) (p : list Z) :
  len (acc ++ x :: p) ≤ max_depth → ¬ len (acc ++ [x]) > max_depth.
Proof.
  rewrite len_app, len_cons, len_snoc. pose proof (len_nonneg p). lia.
Qed.

(** Completeness: when the recursion ends without an exception, every chain
    that extends the accumulated one through [starting_id] to a FINAL
    message, without a repetition and within the depth bound, is in the
    destination list. *)
Lemma rbs_complete (fuel : nat) :
  ∀ starting_id accumulated dest dest' p,
    rbs fuel starting_id accumulated dest = Some (dest', Ok tt) →
    path_to_final library graph (starting_id :: p) →
    NoDup (accumulated ++ starting_id :: p) →
    len (accumulated ++ starting_id :: p) ≤ max_depth →
    accumulated ++ starting_id :: p ∈ dest'.
Proof.
  induction fuel as [| fuel IH]; intros start acc dest dest' p; [done |].
  rewrite rbs_unfold. intros Hrun Hpath Hnodup Hlen.
  rewrite bool_decide_eq_false_2 in Hrun by by eapply chain_fresh.
  rewrite bool_decide_eq_false_2 in Hrun by by eapply chain_depth.
  inversion Hpath as [x m Hm Hfinal | x y rest m Hm Hfinal Hedge Hrest]; subst;
    rewrite Hm in Hrun.
  - rewrite bool_decide_eq_true_2 in Hrun by done.
    injection Hrun as <-. apply elem_of_app. right. apply list_elem_of_here.
  - rewrite bool_decide_eq_false_2 in Hrun by done.
    destruct Hedge as (successors & Hs & Hy). rewrite Hs in Hrun.
    apply for_each_fuel_inv in Hrun as [_ Hcases].
    2: { intros next_id d d' r' _. apply rbs_prefix. }
    destruct Hcases as [[_ Hall] | (e & _ & _ & _ & [=] & _)].
    destruct (Hall y) as (d1 & d2 & Hbody & _ & [k ->]);
      [by apply set_iter_elem |].
    apply elem_of_app. left.
    replace (acc ++ start :: y :: rest) with ((acc ++ [start]) ++ y :: rest)
      in * by by rewrite <- app_assoc.
    by eapply IH.
Qed.

(** An exception is a [KeyError], raised at the end of a chain that leads
    to a failing lookup. *)
Lemma rbs_raise_inv (fuel : nat) :
  ∀ starting_id accumulated dest dest' e,
    rbs fuel starting_id accumulated dest = Some (dest', Raise e) →
    ∃ p, path_to_missing library graph (starting_id :: p)
         ∧ (starting_id ∉ accumulated)
         ∧ (NoDup accumulated → NoDup (accumulated ++ starting_id :: p))
         ∧ len (accumulated ++ starting_id :: p) ≤ max_depth
         ∧ ∃ k, e = KeyError k ∧ last (starting_id :: p) = Some k.
Proof.
  induction fuel as [| fuel IH]; intros start acc dest dest' e; [done |].
  rewrite rbs_unfold.
  case_bool_decide as Hcycle; [done |].
  case_bool_decide as Hdepth; [done |].
  assert (NoDup acc → NoDup (acc ++ [start])) as Hsnoc.
  { intros Hacc. apply NoDup_app. repeat split; [done | | apply NoDup_singleton].
    intros x Hx ->%list_elem_of_singleton. done. }
  destruct (dict_get library start) as [m | e'] eqn:Hm.
  - case_bool_decide as Hfinal; [done |].
    destruct (dict_get graph start) as [successors | e'] eqn:Hs.
    + intros Hloop. apply for_each_fuel_inv in Hloop as [_ Hcases].
      2: { intros next_id d d' r' _. apply rbs_prefix. }
      destruct Hcases as [[[=] _] | (e' & y & d1 & d2 & [= <-] & Hy & Hbody)].
      apply IH in Hbody as (p & Hpath & Hfresh & Hnodup & Hlen & k & -> & Hlast).
      rewrite <- app_assoc in *. simpl in *.
      exists (y :: p). repeat split; [| done | by auto | done | by exists k].
      eapply missing_step; [done | done | | done].
      exists successors. split; [done |]. by apply set_iter_elem.
    + intros [= <- <-]. apply dict_get_raise in Hs as [-> Hs].
      exists []. repeat split; [| done | done | lia | by exists start].
      by eapply missing_node.
  - intros [= <- <-]. apply dict_get_raise in Hm as [-> Hm].
    exists []. repeat split; [| done | done | lia | by exists start].
    by apply missing_message.
Qed.

(** A chain that leads to a failing lookup, without a repetition and within
    the depth bound, makes the recursion raise a [KeyError]. *)
Lemma rbs_raises (fuel : nat) :
  ∀ starting_id accumulated dest dest' r p,
    rbs fuel starting_id accumulated dest = Some (dest', r) →
    path_to_missing library graph (starting_id :: p) →
    NoDup (accumulated ++ starting_id :: p) →
    len (accumulated ++ starting_id :: p) ≤ max_depth →
    ∃ k, r = Raise (KeyError k).
Proof.
  induction fuel as [| fuel IH]; intros start acc dest dest' r p; [done |].
  rewrite rbs_unfold. intros Hrun Hpath Hnodup Hlen.
  rewrite bool_decide_eq_false_2 in Hrun by by eapply chain_fresh.
  rewrite bool_decide_eq_false_2 in Hrun by by eapply chain_depth.
  inversion Hpath
    as [x Hm | x m Hm Hfinal Hs | x y rest m Hm Hfinal Hedge Hrest]; subst.
  - rewrite (dict_get_no_key _ _ Hm) in Hrun. injection Hrun as <- <-.
    by exists start.
  - rewrite Hm, (bool_decide_eq_false_2 _ Hfinal), (dict_get_no_key _ _ Hs) in Hrun.
    injection Hrun as <- <-. by exists start.
  - rewrite Hm, (bool_decide_eq_false_2 _ Hfinal) in Hrun.
    destruct Hedge as (successors & Hs & Hy). rewrite Hs in Hrun.
    apply for_each_fuel_inv in Hrun as [_ Hcases].
    2: { intros next_id d d' r' _. apply rbs_prefix. }
    destruct Hcases as [[_ Hall] | (e & z & d1 & d2 & -> & _ & Hbody)].
    + destruct (Hall y) as (d1 & d2 & Hbody & _); [by apply set_iter_elem |].
      eapply IH in Hbody as [k [=]]; [done | |];
        by rewrite <- app_assoc.
    + apply rbs_raise_inv in Hbody as (_ & _ & _ & _ & _ & k & -> & _).
      by exists k.
Qed.
End recursion.

(** *** Chains *)

Lemma path_to_final_last (library : dict Message) (graph : dict (gset Z))
    (p : list Z) :
  path_to_final library graph p →
  ∃ x m, last p = Some x ∧ dict_get library x = Ok m ∧ position m = FINAL.
Proof.
  induction 1 as [x m Hm Hfinal | x y rest m Hm Hfinal Hedge Hrest IH].
  - by exists x, m.
  - destruct IH as (z & m' & Hlast & ? & ?). by exists z, m'.
Qed.

Lemma path_to_final_leaf (library : dict Message) (graph : dict (gset Z))
    (p : list Z) :
  path_to_final library graph p →
  ∀ (i : nat) x m,
    p !! i = Some x → dict_get library x = Ok m → position m = FINAL →
    S i = length p.
Proof.
  induction 1 as [x m Hm Hfinal | x y rest m Hm Hfinal Hedge Hrest IH];
    intros [| i] z m' Hi Hz Hfinal'; simpl in *.
  - done.
  - by rewrite lookup_nil in Hi.
  - congruence.
  - f_equal. by eapply IH.
Qed.

(** *** [build_sequences] *)

Section from_one_start.
Variable set_iter : gset Z → list Z.
Hypothesis set_iter_perm : ∀ X : gset Z, set_iter X ≡ₚ elements X.
Variables (max_depth : Z) (graph : dict (gset Z)) (library : dict Message).

(** The fuel that [build_sequences] supplies is enough. *)
Lemma build_sequences_total (starting_id : Z) :
  is_Some (build_sequences set_iter starting_id max_depth graph library).
Proof.
  unfold build_sequences, depth_fuel.
  destruct (rbs_fuel_enough set_iter max_depth graph library
              (Z.to_nat max_depth) starting_id [] [])
    as [[dest [[] | e]] ->]; simpl; (lia || done).
Qed.

(** More fuel would give the same outcome. *)
Lemma build_sequences_fuel (starting_id : Z) (fuel : nat) :
  (depth_fuel max_depth ≤ fuel)%nat →
  recursive_build_sequences set_iter fuel starting_id [] [] max_depth graph library
  = recursive_build_sequences set_iter (depth_fuel max_depth) starting_id [] []
      max_depth graph library.
Proof.
  intros Hfuel. unfold depth_fuel in *.
  destruct (rbs_fuel_enough set_iter max_depth graph library
              (Z.to_nat max_depth) starting_id [] []) as [out Hout];
    [simpl; lia |].
  rewrite Hout. by eapply rbs_fuel_mono.
Qed.

Lemma build_sequences_Ok_inv (starting_id : Z) (sequences : list (list Z)) :
  build_sequences set_iter starting_id max_depth graph library = Some (Ok sequences) →
  recursive_build_sequences set_iter (depth_fuel max_depth) starting_id [] []
    max_depth graph library = Some (sequences, Ok tt).
Proof.
  unfold build_sequences.
  destruct (recursive_build_sequences _ _ _ _ _ _ _ _) as [[dest [[] | e]] |];
    [| done | done].
  by intros [= ->].
Qed.

Lemma build_sequences_Raise_inv (starting_id : Z) (e : exn) :
  build_sequences set_iter starting_id max_depth graph library = Some (Raise e) ↔
  ∃ dest, recursive_build_sequences set_iter (depth_fuel max_depth) starting_id [] []
            max_depth graph library = Some (dest, Raise e).
Proof.
  unfold build_sequences.
  destruct (recursive_build_sequences _ _ _ _ _ _ _ _) as [[dest [[] | e']] |].
  - split; [done | by intros [? [=]]].
  - split; [intros [= ->]; by exists dest | by intros [? [= _ ->]]].
  - split; [done | by intros [? [=]]].
Qed.

(** The sequences returned are exactly the chains from [starting_id]. *)
Lemma build_sequences_spec (starting_id : Z) (sequences : list (list Z)) :
  build_sequences set_iter starting_id max_depth graph library = Some (Ok sequences) →
  ∀ s, s ∈ sequences ↔ chain_from library graph max_depth starting_id s.
Proof.
  intros Hrun%build_sequences_Ok_inv s. split.
  - revert s. apply Forall_forall.
    eapply (rbs_sound set_iter set_iter_perm); [exact Hrun | constructor |].
    intros p Hpath _ Hnodup Hlen. simpl in *.
    split; [done |]. split; [done |]. split; [apply Hnodup; constructor | done].
  - intros (Hhead & Hpath & Hnodup & Hlen).
    destruct s as [| x p]; [done |]. injection Hhead as ->.
    by eapply (rbs_complete set_iter set_iter_perm _ _ _ _ _ [] [] _ p).
Qed.

(** [build_sequences] raises exactly when a chain from [starting_id],
    without a repetition and within the depth bound, leads to a failing
    lookup; what it raises is a [KeyError]. *)
Lemma build_sequences_raises (starting_id : Z) :
  (∃ e, build_sequences set_iter starting_id max_depth graph library
        = Some (Raise e))
  ↔ ∃ p, path_to_missing library graph (starting_id :: p)
         ∧ NoDup (starting_id :: p) ∧ len (starting_id :: p) ≤ max_depth.
Proof.
  split.
  - intros [e [dest Hrun]%build_sequences_Raise_inv].
    apply (rbs_raise_inv set_iter set_iter_perm) in Hrun
      as (p & Hpath & _ & Hnodup & Hlen & _).
    exists p. split; [done |]. split; [apply Hnodup; constructor | done].
  - intros (p & Hpath & Hnodup & Hlen).
    destruct (build_sequences_total starting_id) as [out Hout].
    unfold build_sequences in *.
    destruct (recursive_build_sequences _ _ _ _ _ _ _ _)
      as [[dest r] |] eqn:Hrun; [| done].
    eapply (rbs_raises set_iter set_iter_perm) in Hrun as [k ->]; [| done..].
    by eexists.
Qed.

Lemma build_sequences_KeyError (starting_id : Z) (e : exn) :
  build_sequences set_iter starting_id max_depth graph library = Some (Raise e) →
  ∃ k, e = KeyError k.
Proof.
  intros [dest Hrun]%build_sequences_Raise_inv.
  apply (rbs_raise_inv set_iter set_iter_perm) in Hrun
    as (_ & _ & _ & _ & _ & k & -> & _).
  by exists k.
Qed.
End from_one_start.

(** *** [generate_all_sequences] *)

Section from_all_starts.
Variable set_iter : gset Z → list Z.
Hypothesis set_iter_perm : ∀ X : gset Z, set_iter X ≡ₚ elements X.
Variables (max_depth : Z) (graph : dict (gset Z)) (library : dict Message).

Local Abbreviation generate keys sequences :=
  (generate_from set_iter keys sequences library graph max_depth).
Local Abbreviation build starting_id :=
  (build_sequences set_iter starting_id max_depth graph library).

Lemma generate_from_total (keys : list Z) :
  ∀ sequences, is_Some (generate keys sequences).
Proof.
  induction keys as [| k keys IH]; intros sequences; simpl; [done |].
  destruct (dict_get library k) as [m | e]; [| done].
  case_bool_decide; [| apply IH].
  destruct (build_sequences_total set_iter max_depth graph library k)
    as [[found | e] ->]; [apply IH | done].
Qed.

(** A start whose enumeration raises makes the whole loop raise. *)
Lemma generate_from_raises (keys : list Z) :
  ∀ sequences k m e,
    k ∈ keys → dict_get library k = Ok m → position m = INITIAL →
    build k = Some (Raise e) →
    ∃ e', generate keys sequences = Some (Raise e').
Proof.
  induction keys as [| k0 keys IH]; intros sequences k m e Hk Hm Hinit Hrun;
    [by apply elem_of_nil in Hk |].
  simpl. destruct (dict_get library k0) as [m0 | e0] eqn:Hm0; [| by eexists].
  apply elem_of_cons in Hk as [-> | Hk].
  - rewrite Hm in Hm0. injection Hm0 as <-.
    rewrite bool_decide_eq_true_2 by done. rewrite Hrun. by eexists.
  - case_bool_decide; [| by eapply IH].
    destruct (build_sequences_total set_iter max_depth graph library k0)
      as [[found | e0] ->]; [by eapply IH | by eexists].
Qed.

(** What the loop has appended when it ends without an exception. *)
Lemma generate_from_inv (keys : list Z) :
  ∀ sequences out,
    generate keys sequences = Some (Ok out) →
    ∃ new,
      out = sequences ++ new
      ∧ ∀ s, s ∈ new ↔
             ∃ k m found,
               k ∈ keys ∧ dict_get library k = Ok m ∧ position m = INITIAL
               ∧ build k = Some (Ok found) ∧ s ∈ found.
Proof.
  induction keys as [| k keys IH]; intros sequences out; simpl.
  - intros [= <-]. exists []. split; [by rewrite app_nil_r |].
    intros s. split; [by intros ?%elem_of_nil |].
    by intros (? & ? & ? & ?%elem_of_nil & _).
  - destruct (dict_get library k) as [m | e] eqn:Hm; [| done].
    case_bool_decide as Hinit.
    + destruct (build k) as [[found | e] |] eqn:Hrun; [| done | done].
      intros (new & -> & Hnew)%IH. exists (found ++ new).
      split; [by rewrite app_assoc |].
      intros s. rewrite elem_of_app, Hnew. split.
      * intros [Hs | (k' & m' & found' & Hk' & ?)].
        -- exists k, m, found. split; [apply list_elem_of_here | done].
        -- exists k', m', found'. split; [by apply list_elem_of_further | done].
      * intros (k' & m' & found' & [-> | Hk']%elem_of_cons & Hm' & ? & Hrun' & Hs).
        -- left. congruence.
        -- right. by exists k', m', found'.
    + intros (new & -> & Hnew)%IH. exists new. split; [done |].
      intros s. rewrite Hnew. split.
      * intros (k' & m' & found' & Hk' & ?).
        exists k', m', found'. split; [by apply list_elem_of_further | done].
      * intros (k' & m' & found' & [-> | Hk']%elem_of_cons & Hm' & ? & Hrun' & Hs).
        -- congruence.
        -- by exists k', m', found'.
Qed.

Lemma generate_from_nothing (keys : list Z) :
  (∀ k, k ∈ keys →
        ∃ m, dict_get library k = Ok m
             ∧ (position m = INITIAL → build k = Some (Ok []))) →
  ∀ sequences, generate keys sequences = Some (Ok sequences).
Proof.
  induction keys as [| k keys IH]; intros Hkeys sequences; simpl; [done |].
  destruct (Hkeys k) as (m & -> & Hrun); [apply list_elem_of_here |].
  assert (∀ k', k' ∈ keys →
                 ∃ m', dict_get library k' = Ok m'
                       ∧ (position m' = INITIAL → build k' = Some (Ok [])))
    as Hrest.
  { intros k' Hk'. apply Hkeys. by apply list_elem_of_further. }
  case_bool_decide as Hinit; [| by apply IH].
  rewrite Hrun by done. rewrite app_nil_r. by apply IH.
Qed.

Lemma generate_all_sequences_total :
  is_Some (generate_all_sequences set_iter library graph max_depth).
Proof. apply generate_from_total. Qed.

(** The sequences returned are exactly the chains from the INITIAL
    messages of the library. *)
Lemma generate_all_sequences_spec (sequences : list (list Z)) :
  generate_all_sequences set_iter library graph max_depth = Some (Ok sequences) →
  ∀ s, s ∈ sequences ↔
       ∃ starting_id m,
         dict_get library starting_id = Ok m ∧ position m = INITIAL
         ∧ chain_from library graph max_depth starting_id s.
Proof.
  unfold generate_all_sequences. intros Hrun s.
  destruct (generate_from_inv _ _ _ Hrun) as (new & -> & Hnew).
  simpl. rewrite Hnew. split.
  - intros (k & m & found & Hk & Hm & Hinit & Hfound & Hs).
    exists k, m. split; [done |]. split; [done |].
    by eapply (build_sequences_spec set_iter set_iter_perm).
  - intros (k & m & Hm & Hinit & Hchain).
    assert (k ∈ dict_keys library) as Hk by (apply dict_get_key; by exists m).
    destruct (build_sequences_total set_iter max_depth graph library k)
      as [[found | e] Hfound].
    + exists k, m, found. do 4 (split; [done |]).
      by eapply (build_sequences_spec set_iter set_iter_perm).
    + destruct (generate_from_raises _ [] k m e Hk Hm Hinit Hfound) as [e' He'].
      congruence.
Qed.
End from_all_starts.

(** *** The chain of [k] messages *)

Lemma dict_get_tabulate {V} (f : Z → V) (l : list Z) (i : Z) :
  i ∈ l → dict_get ((λ i, (i, f i)) <$> l) i = Ok (f i).
Proof.
  induction l as [| j l IH]; intros Hi; [by apply elem_of_nil in Hi |].
  simpl. case_bool_decide as Hj; [by subst |].
  apply elem_of_cons in Hi as [-> | Hi]; [done | by apply IH].
Qed.

Lemma dict_keys_tabulate {V} (f : Z → V) (l : list Z) :
  dict_keys ((λ i, (i, f i)) <$> l) = l.
Proof. induction l as [| j l IH]; simpl; [done | by f_equal]. Qed.

Lemma chain_graph_edge (k i y : Z) : has_edge (chain_graph k) i y → y = i + 1.
Proof.
  intros (successors & Hs & Hy). unfold chain_graph in Hs.
  destruct (decide (i ∈ seqZ 1 k)) as [Hi | Hi].
  - rewrite (dict_get_tabulate (λ i, {[i + 1]}) _ _ Hi) in Hs.
    injection Hs as <-. by apply elem_of_singleton in Hy.
  - rewrite dict_get_no_key in Hs; [done |]. by rewrite dict_keys_tabulate.
Qed.

Lemma chain_path (k : Z) (n : nat) :
  ∀ i, 1 ≤ i → i + Z.of_nat n = k →
       path_to_final (chain_library k) (chain_graph k) (seqZ i (Z.of_nat n + 1)).
Proof.
  induction n as [| n IH]; intros i Hi Hk.
  - rewrite seqZ_cons, seqZ_nil by lia.
    apply (path_final _ _ i (chain_message k i)).
    + apply (dict_get_tabulate (chain_message k)). apply elem_of_seqZ. lia.
    + simpl. by rewrite bool_decide_eq_true_2 by lia.
  - rewrite seqZ_cons by lia.
    specialize (IH (Z.succ i)). rewrite seqZ_cons in IH by lia.
    replace (Z.pred (Z.of_nat (S n) + 1)) with (Z.of_nat n + 1) by lia.
    rewrite seqZ_cons by lia.
    apply (path_step _ _ i (Z.succ i) _ (chain_message k i)).
    + apply (dict_get_tabulate (chain_message k)). apply elem_of_seqZ. lia.
    + simpl. by rewrite bool_decide_eq_false_2 by lia.
    + exists {[i + 1]}. split; [| apply elem_of_singleton; lia].
      apply (dict_get_tabulate (λ i, {[i + 1]})). apply elem_of_seqZ. lia.
    + apply IH; lia.
Qed.

Lemma chain_no_missing (k : Z) (p : list Z) :
  path_to_missing (chain_library k) (chain_graph k) p →
  ∀ i, head p = Some i → 1 ≤ i → i + len p - 1 ≤ k → False.
Proof.
  induction 1 as [x Hx | x m Hm Hfinal Hx | x y rest m Hm Hfinal Hedge Hrest IH];
    intros i [= ->] Hi Hk; unfold len in Hk; simpl in Hk.
  - apply Hx. unfold chain_library. rewrite dict_keys_tabulate.
    apply elem_of_seqZ. lia.
  - apply Hx. unfold chain_graph. rewrite dict_keys_tabulate.
    apply elem_of_seqZ. lia.
  - apply chain_graph_edge in Hedge as ->.
    apply (IH (i + 1)); [done | lia |]. unfold len. simpl. lia.
Qed.

(** With depth parameter [k] the chain of [k] messages is enumerated in
    full, from any order of traversal of the sets. *)
Lemma chain_enumerated (set_iter : gset Z → list Z) (k : Z) :
  (∀ X : gset Z, set_iter X ≡ₚ elements X) →
  1 ≤ k →
  ∃ sequences,
    build_sequences set_iter 1 k (chain_graph k) (chain_library k)
    = Some (Ok sequences)
    ∧ seqZ 1 k ∈ sequences ∧ len (seqZ 1 k) = k.
Proof.
  intros Hiter Hk.
  destruct (build_sequences_total set_iter k (chain_graph k) (chain_library k) 1)
    as [[sequences | e] Hrun].
  - exists sequences. split; [done |].
    split; [| unfold len; rewrite length_seqZ; lia].
    apply (build_sequences_spec _ Hiter _ _ _ _ _ Hrun).
    split; [by rewrite seqZ_cons by lia |].
    split; [| split; [apply NoDup_seqZ | unfold len; rewrite length_seqZ; lia]].
    replace k with (Z.of_nat (Z.to_nat (k - 1)) + 1) at 3 by lia.
    apply chain_path; lia.
  - exfalso.
    destruct (proj1 (build_sequences_raises set_iter Hiter k (chain_graph k)
                       (chain_library k) 1)) as (p & Hpath & _ & Hlen);
      [by exists e |].
    apply (chain_no_missing k (1 :: p) Hpath 1); [done | lia | lia].
Qed.

(** *** Properties of the sequences produced *)

(** C2: no sequence returned by [build_sequences] or by
    [generate_all_sequences] holds an id twice; both functions end. *)
Theorem sequences_repeat_no_id (set_iter : gset Z → list Z)
    (library : dict Message) (graph : dict (gset Z)) (max_depth : Z) :
  (∀ X : gset Z, set_iter X ≡ₚ elements X) →
  (∀ starting_id,
     is_Some (build_sequences set_iter starting_id max_depth graph library))
  ∧ is_Some (generate_all_sequences set_iter library graph max_depth)
  ∧ (∀ starting_id sequences,
       build_sequences set_iter starting_id max_depth graph library
       = Some (Ok sequences) →
       ∀ s, s ∈ sequences → NoDup s)
  ∧ (∀ sequences,
       generate_all_sequences set_iter library graph max_depth = Some (Ok sequences) →
       ∀ s, s ∈ sequences → NoDup s).
Proof.
  intros Hiter.
  split; [apply build_sequences_total |].
  split; [apply generate_all_sequences_total |].
  split.
  - intros starting_id sequences Hrun s Hs.
    by apply (build_sequences_spec _ Hiter _ _ _ _ _ Hrun) in Hs as (_ & _ & ? & _).
  - intros sequences Hrun s Hs.
    by apply (generate_all_sequences_spec _ Hiter _ _ _ _ Hrun)
      in Hs as (_ & _ & _ & _ & _ & _ & ? & _).
Qed.

Lemma sequences_repeat_no_id_witness :
  generate_all_sequences elements scenario_library scenario_graph 2
  = Some (Ok [[1; 2]])
  ∧ NoDup [1; 2].
Proof.
  assert (generate_all_sequences elements scenario_library scenario_graph 2
          = Some (Ok [[1; 2]])) as Hrun by by vm_compute.
  split; [exact Hrun |].
  destruct (sequences_repeat_no_id elements scenario_library scenario_graph 2)
    as (_ & _ & _ & Hall); [done |].
  apply (Hall [[1; 2]] Hrun). apply list_elem_of_here.
Defined.

(** C3: a sequence returned with depth parameter [max_depth] has at most
    [max_depth] elements, and the bound is inclusive: a chain of exactly
    [max_depth] messages is among the sequences returned, and for every
    positive [max_depth] there is a library and graph, the chain of
    [max_depth] messages, from which such a sequence is returned. *)
Theorem depth_bound_inclusive (set_iter : gset Z → list Z)
    (library : dict Message) (graph : dict (gset Z)) (max_depth : Z) :
  (∀ X : gset Z, set_iter X ≡ₚ elements X) →
  (∀ starting_id sequences,
     build_sequences set_iter starting_id max_depth graph library
     = Some (Ok sequences) →
     (∀ s, s ∈ sequences → len s ≤ max_depth)
     ∧ (∀ s, head s = Some starting_id → path_to_final library graph s →
             NoDup s → len s = max_depth → s ∈ sequences))
  ∧ (∀ sequences,
       generate_all_sequences set_iter library graph max_depth = Some (Ok sequences) →
       (∀ s, s ∈ sequences → len s ≤ max_depth)
       ∧ (∀ s starting_id m,
            head s = Some starting_id → dict_get library starting_id = Ok m →
            position m = INITIAL → path_to_final library graph s →
            NoDup s → len s = max_depth → s ∈ sequences))
  ∧ (1 ≤ max_depth →
     ∃ sequences s,
       build_sequences set_iter 1 max_depth (chain_graph max_depth)
         (chain_library max_depth) = Some (Ok sequences)
       ∧ s ∈ sequences ∧ len s = max_depth).
Proof.
  intros Hiter. split; [| split].
  - intros starting_id sequences Hrun. split.
    + intros s Hs.
      by apply (build_sequences_spec _ Hiter _ _ _ _ _ Hrun) in Hs as (_ & _ & _ & ?).
    + intros s Hhead Hpath Hnodup Hlen.
      apply (build_sequences_spec _ Hiter _ _ _ _ _ Hrun).
      repeat split; [done..| lia].
  - intros sequences Hrun. split.
    + intros s Hs.
      by apply (generate_all_sequences_spec _ Hiter _ _ _ _ Hrun)
        in Hs as (_ & _ & _ & _ & _ & _ & _ & ?).
    + intros s starting_id m Hhead Hm Hinit Hpath Hnodup Hlen.
      apply (generate_all_sequences_spec _ Hiter _ _ _ _ Hrun).
      exists starting_id, m. repeat split; [done..| lia].
  - intros Hdepth.
    destruct (chain_enumerated set_iter max_depth Hiter Hdepth)
      as (sequences & Hrun & Hs & Hlen).
    by exists sequences, (seqZ 1 max_depth).
Qed.

Lemma depth_bound_inclusive_witness :
  generate_all_sequences elements scenario_library scenario_graph 2
  = Some (Ok [[1; 2]])
  ∧ len [1; 2] ≤ 2
  ∧ generate_all_sequences elements scenario_library scenario_graph 1 = Some (Ok []).
Proof.
  assert (generate_all_sequences elements scenario_library scenario_graph 2
          = Some (Ok [[1; 2]])) as Hrun by by vm_compute.
  split; [exact Hrun |]. split; [| by vm_compute].
  destruct (depth_bound_inclusive elements scenario_library scenario_graph 2)
    as (_ & Hall & _); [done |].
  apply (Hall [[1; 2]] Hrun). apply list_elem_of_here.
Defined.

(** C4: a sequence returned by [generate_all_sequences] is not empty, starts
    at an INITIAL message and ends at a FINAL one, and holds a FINAL message
    nowhere else; whatever the graph records for it, a FINAL message ends the
    enumeration: from a FINAL start [build_sequences] returns the start alone. *)
Theorem termination_shape (set_iter : gset Z → list Z)
    (library : dict Message) (graph : dict (gset Z)) (max_depth : Z) :
  (∀ X : gset Z, set_iter X ≡ₚ elements X) →
  (∀ sequences,
     generate_all_sequences set_iter library graph max_depth = Some (Ok sequences) →
     ∀ s, s ∈ sequences →
       s ≠ []
       ∧ (∃ first m, head s = Some first ∧ dict_get library first = Ok m
                     ∧ position m = INITIAL)
       ∧ (∃ final m, last s = Some final ∧ dict_get library final = Ok m
                     ∧ position m = FINAL)
       ∧ (∀ (i : nat) x m,
            s !! i = Some x → dict_get library x = Ok m → position m = FINAL →
            S i = length s))
  ∧ (∀ starting_id m,
       dict_get library starting_id = Ok m → position m = FINAL → 1 ≤ max_depth →
       build_sequences set_iter starting_id max_depth graph library
       = Some (Ok [[starting_id]])).
Proof.
  intros Hiter. split.
  - intros sequences Hrun s Hs.
    apply (generate_all_sequences_spec _ Hiter _ _ _ _ Hrun) in Hs
      as (first & m & Hm & Hinit & Hhead & Hpath & _ & _).
    split; [by intros -> |].
    split; [by exists first, m |].
    split; [by eapply path_to_final_last |].
    by eapply path_to_final_leaf.
  - intros starting_id m Hm Hfinal Hdepth.
    unfold build_sequences, depth_fuel. rewrite rbs_unfold.
    rewrite bool_decide_eq_false_2 by apply not_elem_of_nil.
    rewrite bool_decide_eq_false_2 by (unfold len; simpl; lia).
    rewrite Hm. by rewrite bool_decide_eq_true_2 by done.
Qed.

(** A graph that records successors of the FINAL message of the scenario. *)
Lemma termination_shape_witness :
  generate_all_sequences elements scenario_library [(1, {[2]}); (2, {[1; 3]}); (3, ∅)] 5
  = Some (Ok [[1; 2]])
  ∧ (∃ first m, head [1; 2] = Some first ∧ dict_get scenario_library first = Ok m
                ∧ position m = INITIAL)
  ∧ (∃ final m, last [1; 2] = Some final ∧ dict_get scenario_library final = Ok m
                ∧ position m = FINAL).
Proof.
  set (graph := [(1, {[2]}); (2, {[1; 3]}); (3, ∅)] : dict (gset Z)).
  assert (generate_all_sequences elements scenario_library graph 5
          = Some (Ok [[1; 2]])) as Hrun by by vm_compute.
  split; [exact Hrun |].
  destruct (termination_shape elements scenario_library graph 5) as [Hall _];
    [done |].
  destruct (Hall [[1; 2]] Hrun [1; 2]) as (_ & Hfirst & Hlast & _);
    [apply list_elem_of_here |].
  by split.
Defined.

(** C8: [generate_all_sequences] returns the empty list when [max_depth] is
    not positive, when the library is empty, and when no message of the
    library is INITIAL; [build_sequences] returns the empty list from every
    start when [max_depth] is not positive. *)
Theorem degenerate_inputs (set_iter : gset Z → list Z)
    (library : dict Message) (graph : dict (gset Z)) (max_depth : Z) :
  (max_depth ≤ 0 →
   generate_all_sequences set_iter library graph max_depth = Some (Ok []))
  ∧ generate_all_sequences set_iter [] graph max_depth = Some (Ok [])
  ∧ ((∀ k m, dict_get library k = Ok m → position m ≠ INITIAL) →
     generate_all_sequences set_iter library graph max_depth = Some (Ok []))
  ∧ (max_depth ≤ 0 →
     ∀ starting_id,
       build_sequences set_iter starting_id max_depth graph library = Some (Ok [])).
Proof.
  assert (max_depth ≤ 0 →
          ∀ starting_id,
            build_sequences set_iter starting_id max_depth graph library
            = Some (Ok [])) as Hbuild.
  { intros Hdepth starting_id. unfold build_sequences, depth_fuel.
    rewrite rbs_unfold.
    rewrite bool_decide_eq_false_2 by apply not_elem_of_nil.
    by rewrite bool_decide_eq_true_2 by (unfold len; simpl; lia). }
  split; [| split; [done | split; [| done]]].
  - intros Hdepth. apply generate_from_nothing.
    intros k [m Hm]%dict_get_key. exists m. split; [done |].
    intros _. by apply Hbuild.
  - intros Hnone. apply generate_from_nothing.
    intros k [m Hm]%dict_get_key. exists m. split; [done |].
    intros Hinit. by apply Hnone in Hm.
Qed.

Lemma degenerate_inputs_witness :
  generate_all_sequences elements scenario_library scenario_graph 0 = Some (Ok [])
  ∧ generate_all_sequences elements [(2, login_ack)] [(2, {[2]})] 3 = Some (Ok [])
  ∧ build_sequences elements 1 (-1) scenario_graph scenario_library = Some (Ok []).
Proof.
  split; [| split].
  - destruct (degenerate_inputs elements scenario_library scenario_graph 0)
      as (Hdepth & _).
    apply Hdepth. lia.
  - destruct (degenerate_inputs elements [(2, login_ack)] [(2, {[2]})] 3)
      as (_ & _ & Hnone & _).
    apply Hnone. intros k m. simpl. case_bool_decide; [| done]. by intros [= <-].
  - destruct (degenerate_inputs elements scenario_library scenario_graph (-1))
      as (_ & _ & _ & Hbuild).
    apply Hbuild. lia.
Defined.

(** ** Unknown identifiers *)

Lemma for_each_raise_first {X S : Type} (x : X) (xs : list X)
    (body : X → S → S * result unit) (s s' : S) (e : exn) :
  body x s = (s', Raise e) → for_each (x :: xs) body s = (s', Raise e).
Proof. intros Hbody. simpl. by rewrite Hbody. Qed.

Lemma relate_Ok (library : dict Message) (graph : dict (gset Z)) (a_id b_id : Z) :
  a_id ∈ dict_keys graph →
  a_id ∈ dict_keys library → b_id ∈ dict_keys library →
  ∃ graph', relate library a_id b_id graph = (graph', Ok tt)
            ∧ dict_keys graph' = dict_keys graph.
Proof.
  intros [s Hs]%dict_get_key [a Ha]%dict_get_key [b Hb]%dict_get_key.
  unfold relate, add_successor. rewrite Ha, Hb, Hs.
  destruct (causal a b); eexists; (split; [done |]); [apply dict_keys_update | done].
Qed.

(** The inner loop meets a key that the library lacks. *)
Lemma relate_all_raises (library : dict Message) (a_id : Z) (b_ids : list Z) :
  ∀ graph : dict (gset Z),
    a_id ∈ dict_keys graph → a_id ∈ dict_keys library →
    (∃ b_id, b_id ∈ b_ids ∧ b_id ∉ dict_keys library) →
    ∃ graph' k,
      for_each b_ids (λ b_id, relate library a_id b_id) graph
      = (graph', Raise (KeyError k))
      ∧ k ∈ b_ids ∧ k ∉ dict_keys library.
Proof.
  induction b_ids as [| b0 b_ids IH]; intros graph Hgraph Ha (b & Hb & Hmissing);
    [by apply elem_of_nil in Hb |].
  destruct (decide (b0 ∈ dict_keys library)) as [Hb0 | Hb0].
  - destruct (relate_Ok library graph a_id b0) as (g1 & Hstep & Hkeys); [done..|].
    destruct (IH g1) as (graph' & k & Hrest & Hk & Hk'); [by rewrite Hkeys | done | |].
    { exists b. split; [| done].
      apply elem_of_cons in Hb as [-> | Hb]; [done | done]. }
    exists graph', k. simpl. rewrite Hstep.
    split; [done |]. split; [by apply list_elem_of_further | done].
  - exists graph, b0. split; [| split; [apply list_elem_of_here | done]].
    apply for_each_raise_first. unfold relate.
    apply dict_get_key in Ha as [a ->]. by rewrite (dict_get_no_key _ _ Hb0).
Qed.

Lemma build_relationships_raises (graph : dict (gset Z)) (library : dict Message) :
  (∃ k, k ∈ dict_keys graph ∧ k ∉ dict_keys library) →
  ∃ graph' k,
    build_relationships graph library = (graph', Raise (KeyError k))
    ∧ k ∈ dict_keys graph ∧ k ∉ dict_keys library.
Proof.
  intros Hmissing. unfold build_relationships.
  destruct (dict_keys graph) as [| a0 keys] eqn:Hkeys.
  { destruct Hmissing as (k & Hk & _). by apply elem_of_nil in Hk. }
  destruct (decide (a0 ∈ dict_keys library)) as [Ha0 | Ha0].
  - destruct (relate_all_raises library a0 (a0 :: keys) graph)
      as (graph' & k & Hinner & Hk & Hk'); [| done | done |].
    { rewrite Hkeys. apply list_elem_of_here. }
    exists graph', k. split; [| done].
    by apply for_each_raise_first.
  - exists graph, a0. split; [| split; [apply list_elem_of_here | done]].
    apply for_each_raise_first, for_each_raise_first. unfold relate.
    by rewrite (dict_get_no_key _ _ Ha0).
Qed.

(** Lookups that the enumerator never makes raise nothing: an unknown start
    with a depth bound that is not positive; an unknown successor beyond the
    depth bound; a FINAL successor without an entry in the graph. *)
Lemma unknown_id_not_raised :
  ((7 ∉ dict_keys ([] : dict Message))
   ∧ build_sequences elements 7 0 [] [] = Some (Ok []))
  ∧ (has_edge [(1, {[9]})] 1 9 ∧ (9 ∉ dict_keys [(1, login)])
     ∧ build_sequences elements 1 1 [(1, {[9]})] [(1, login)] = Some (Ok []))
  ∧ (has_edge [(1, {[2]})] 1 2 ∧ (2 ∉ dict_keys ([(1, {[2]})] : dict (gset Z)))
     ∧ build_sequences elements 1 2 [(1, {[2]})] scenario_library
       = Some (Ok [[1; 2]])).
Proof.
  split; [| split].
  - split; [apply not_elem_of_nil | by vm_compute].
  - split; [| split; [| by vm_compute]].
    + exists {[9]}. split; [done |]. by apply elem_of_singleton.
    + compute_done.
  - split; [| split; [| by vm_compute]].
    + exists {[2]}. split; [done |]. by apply elem_of_singleton.
    + compute_done.
Qed.

(** C9, as the code has it: with a positive depth bound [build_sequences]
    raises [KeyError] from a start that the library lacks; it raises
    [KeyError] when a chain from the start, without a repetition and within
    the depth bound, leads to an id that the library lacks or to a message
    that is not FINAL and has no entry in the graph; [build_relationships]
    raises [KeyError] when the library lacks a key of the graph; and an
    exception raised for one start leaves [generate_all_sequences] by that
    exception, with no sequences returned. *)
Theorem unknown_id_raises (set_iter : gset Z → list Z)
    (library : dict Message) (graph : dict (gset Z)) (max_depth : Z) :
  (∀ X : gset Z, set_iter X ≡ₚ elements X) →
  (∀ starting_id,
     1 ≤ max_depth → starting_id ∉ dict_keys library →
     build_sequences set_iter starting_id max_depth graph library
     = Some (Raise (KeyError starting_id)))
  ∧ (∀ starting_id p,
       path_to_missing library graph (starting_id :: p) →
       NoDup (starting_id :: p) → len (starting_id :: p) ≤ max_depth →
       ∃ k, build_sequences set_iter starting_id max_depth graph library
            = Some (Raise (KeyError k)))
  ∧ (∀ k, k ∈ dict_keys graph → k ∉ dict_keys library →
          ∃ graph' k',
            build_relationships graph library = (graph', Raise (KeyError k'))
            ∧ k' ∈ dict_keys graph ∧ k' ∉ dict_keys library)
  ∧ (∀ starting_id m e,
       dict_get library starting_id = Ok m → position m = INITIAL →
       build_sequences set_iter starting_id max_depth graph library
       = Some (Raise e) →
       ∃ e', generate_all_sequences set_iter library graph max_depth
             = Some (Raise e')).
Proof.
  intros Hiter. split; [| split; [| split]].
  - intros starting_id Hdepth Hmissing.
    unfold build_sequences, depth_fuel. rewrite rbs_unfold.
    rewrite bool_decide_eq_false_2 by apply not_elem_of_nil.
    rewrite bool_decide_eq_false_2 by (unfold len; simpl; lia).
    by rewrite (dict_get_no_key _ _ Hmissing).
  - intros starting_id p Hpath Hnodup Hlen.
    destruct (proj2 (build_sequences_raises set_iter Hiter max_depth graph library
                       starting_id)) as [e He]; [by exists p |].
    destruct (build_sequences_KeyError _ Hiter _ _ _ _ _ He) as [k ->].
    by exists k.
  - intros k Hk Hmissing. apply build_relationships_raises. by exists k.
  - intros starting_id m e Hm Hinit Hrun.
    eapply generate_from_raises; [| done..].
    apply dict_get_key. by exists m.
Qed.

Lemma unknown_id_raises_witness :
  build_sequences elements 7 1 scenario_graph scenario_library
  = Some (Raise (KeyError 7))
  ∧ ∃ graph' k,
      build_relationships [(1, ∅); (4, ∅)] scenario_library
      = (graph', Raise (KeyError k)).
Proof.
  destruct (unknown_id_raises elements scenario_library scenario_graph 1)
    as (Hstart & _); [done |].
  destruct (unknown_id_raises elements scenario_library [(1, ∅); (4, ∅)] 1)
    as (_ & _ & Hkeys & _); [done |].
  split.
  - apply Hstart; [lia |]. compute_done.
  - destruct (Hkeys 4) as (graph' & k & Hrun & _); [compute_done.. |].
    by exists graph', k.
Defined.

(** The successors added before the failing lookup stay in the graph. *)
Example build_relationships_interrupted :
  build_relationships [(1, ∅); (2, ∅); (4, ∅)] scenario_library
  = ([(1, {[2]}); (2, ∅); (4, ∅)], Raise (KeyError 4)).
Proof. by vm_compute. Qed.

(** * Further properties *)

(** ** Graph builder: what a run can change *)

Lemma for_each_invariant {X S : Type} (I : S → Prop) (xs : list X)
    (body : X → S → S * result unit) :
  (∀ x s s' r, x ∈ xs → I s → body x s = (s', r) → I s') →
  ∀ s s' r, I s → for_each xs body s = (s', r) → I s'.
Proof.
  induction xs as [| x xs IH]; intros Hbody s s' r Hs; simpl.
  - by intros [= <- _].
  - destruct (body x s) as [s1 [[] | e]] eqn:Hx.
    + apply IH.
      * intros y ? ? ? Hy. apply Hbody. by apply list_elem_of_further.
      * eapply Hbody; [apply list_elem_of_here | done | done].
    + intros [= <- _]. eapply Hbody; [apply list_elem_of_here | done | done].
Qed.

Lemma causal_ids_distinct (library : dict Message) (a_id b_id : Z) :
  causal_ids library a_id b_id → a_id ≠ b_id.
Proof.
  intros (a & b & Ha & Hb & Hc) ->.
  rewrite Ha in Hb. injection Hb as <-.
  apply causal_true_iff in Hc as (_ & _ & _ & _ & Hid). done.
Qed.

(** One step either leaves the store as it is or adds one id to one set
    object, for a causal pair. *)
Lemma shared_relate_cases (library : dict Message) (graph : dict nat)
    (sets sets' : gmap nat (gset Z)) (a_id b_id : Z) (res : result unit) :
  Shared.relate library a_id b_id graph sets = (sets', res) →
  sets' = sets
  ∨ ∃ r, dict_get graph a_id = Ok r
         ∧ sets' = alter (λ successors, {[b_id]} ∪ successors) r sets
         ∧ causal_ids library a_id b_id.
Proof.
  unfold Shared.relate, Shared.add_successor.
  destruct (dict_get library a_id) as [a | e] eqn:Ha; [| intros [= <- _]; by left].
  destruct (dict_get library b_id) as [b | e] eqn:Hb; [| intros [= <- _]; by left].
  destruct (causal a b) eqn:Hc; [| intros [= <- _]; by left].
  destruct (dict_get graph a_id) as [r | e] eqn:Hr; [| intros [= <- _]; by left].
  intros [= <- _]. right. exists r. split; [done |]. split; [done |]. by exists a, b.
Qed.

(** X1: whether it returns or raises, [build_relationships] creates and
    drops no set object, removes no successor, and makes [b_id] a successor
    of [a_id] only when [b_id] is a key of the graph and [causal] holds of
    the message of a key other than [b_id] that refers to the set object of
    [a_id], and of the message of [b_id]; for a key that shares its set
    object with no other key, that key is [a_id] itself. *)
Theorem build_relationships_shared_frame (graph : dict nat)
    (sets : gmap nat (gset Z)) (library : dict Message) :
  let sets' := (Shared.build_relationships graph library sets).1 in
  dom sets' = dom sets
  ∧ (∀ a_id b_id,
       Shared.has_edge graph sets a_id b_id → Shared.has_edge graph sets' a_id b_id)
  ∧ (∀ a_id b_id,
       Shared.has_edge graph sets' a_id b_id →
       Shared.has_edge graph sets a_id b_id
       ∨ ∃ a_id', Shared.same_set graph a_id a_id' ∧ b_id ∈ dict_keys graph
                  ∧ a_id' ≠ b_id ∧ causal_ids library a_id' b_id)
  ∧ (∀ a_id b_id,
       (∀ a_id', Shared.same_set graph a_id a_id' → a_id' = a_id) →
       Shared.has_edge graph sets' a_id b_id →
       Shared.has_edge graph sets a_id b_id
       ∨ (a_id ∈ dict_keys graph ∧ b_id ∈ dict_keys graph ∧ a_id ≠ b_id
          ∧ causal_ids library a_id b_id)).
Proof.
  set (I := λ s : gmap nat (gset Z),
         dom s = dom sets
         ∧ (∀ r x, Shared.holds sets r x → Shared.holds s r x)
         ∧ (∀ r x,
              Shared.holds s r x →
              Shared.holds sets r x
              ∨ ∃ a_id', dict_get graph a_id' = Ok r ∧ x ∈ dict_keys graph
                         ∧ a_id' ≠ x ∧ causal_ids library a_id' x)).
  unfold Shared.build_relationships.
  destruct (for_each _ _ sets) as [sets' res] eqn:Hrun. simpl.
  assert (I sets') as (Hdom & Hkeep & Hnew).
  { eapply (for_each_invariant I); [| | exact Hrun].
    - intros a_id s s' res' Ha Hs Hinner.
      eapply (for_each_invariant I); [| exact Hs | exact Hinner].
      intros b_id s1 s2 res2 Hb (Hdom & Hkeep & Hnew) Hstep. simpl in Hstep.
      apply shared_relate_cases in Hstep as [-> | (r & Hr & -> & Hc)]; [done |].
      split; [by rewrite dom_alter_L |]. split.
      + intros r' x Hx. apply holds_alter. left. by apply Hkeep.
      + intros r' x [Hx | (-> & -> & _)]%holds_alter; [by apply Hnew |].
        right. exists a_id. split; [done |]. split; [done |].
        split; [by eapply causal_ids_distinct | done].
    - unfold I. split; [done |]. split; [done | by left]. }
  assert (∀ a_id b_id,
            Shared.has_edge graph sets' a_id b_id →
            Shared.has_edge graph sets a_id b_id
            ∨ ∃ a_id', Shared.same_set graph a_id a_id' ∧ b_id ∈ dict_keys graph
                       ∧ a_id' ≠ b_id ∧ causal_ids library a_id' b_id) as Hedges.
  { intros a_id b_id (r & Hr & [Hx | (a' & Hr' & ? & ? & ?)]%Hnew).
    - left. by exists r.
    - right. exists a'. split; [by exists r | done]. }
  split; [done |]. split; [| split; [done |]].
  - intros a_id b_id (r & Hr & Hx). exists r. split; [done | by apply Hkeep].
  - intros a_id b_id Howned [? | (a' & Hsame & ? & ? & ?)]%Hedges; [by left |].
    right. rewrite (Howned a' Hsame) in *.
    split; [| done]. destruct Hsame as (r & Hr & _). apply dict_get_key. by exists r.
Qed.

Lemma build_relationships_shared_frame_witness :
  dom (Shared.build_relationships shared_graph scenario_library shared_sets).1
  = dom shared_sets
  ∧ ∃ a_id', Shared.same_set shared_graph 2 a_id' ∧ a_id' ≠ 2
             ∧ causal_ids scenario_library a_id' 2.
Proof.
  destruct (build_relationships_shared_frame shared_graph shared_sets
              scenario_library) as (Hdom & _ & Hnew & _).
  split; [exact Hdom |].
  destruct (Hnew 2 2) as [Hold | (a_id' & Hsame & _ & Hne & Hc)].
  - exists 0%nat. split; [done |]. exists {[2]}.
    split; [by vm_compute | by apply elem_of_singleton].
  - destruct Hold as (r & [= <-] & s & Hs & Hin). unfold shared_sets in Hs.
    apply lookup_singleton_Some in Hs as [_ <-]. by apply not_elem_of_empty in Hin.
  - by exists a_id'.
Defined.

(** *** The graph in which every key owns its set *)

Lemma for_each_refine {X S T : Type} (abs : S → T) (I : S → Prop) (xs : list X)
    (body : X → S → S * result unit) (body' : X → T → T * result unit) :
  (∀ x s, x ∈ xs → I s →
          I (body x s).1 ∧ body' x (abs s) = (abs (body x s).1, (body x s).2)) →
  ∀ s, I s →
       I (for_each xs body s).1
       ∧ for_each xs body' (abs s)
         = (abs (for_each xs body s).1, (for_each xs body s).2).
Proof.
  induction xs as [| x xs IH]; intros Hstep s Hs; simpl; [done |].
  destruct (Hstep x s) as [Hs1 Hx]; [apply list_elem_of_here | done |].
  rewrite Hx. destruct (body x s) as [s1 [[] | e]]; simpl in *; [| done].
  apply IH; [| done]. intros y s' Hy. apply Hstep. by apply list_elem_of_further.
Qed.

Lemma dict_keys_contents (graph : dict nat) (sets : gmap nat (gset Z)) :
  dict_keys (Shared.contents graph sets) = dict_keys graph.
Proof. induction graph as [| [k r] graph IH]; simpl; [done | by f_equal]. Qed.

Lemma dict_get_contents (graph : dict nat) (sets : gmap nat (gset Z)) (k : Z) :
  dict_get (Shared.contents graph sets) k
  = match dict_get graph k with
    | Ok r => Ok (default ∅ (sets !! r))
    | Raise e => Raise e
    end.
Proof.
  induction graph as [| [k' r] graph IH]; simpl; [done |].
  by case_bool_decide.
Qed.

Lemma dict_get_ref (graph : dict nat) (k : Z) (r : nat) :
  dict_get graph k = Ok r → r ∈ graph.*2.
Proof.
  induction graph as [| [k' r'] graph IH]; simpl; [done |].
  case_bool_decide.
  - intros [= ->]. apply list_elem_of_here.
  - intros Hr. by apply list_elem_of_further, IH.
Qed.

Lemma contents_alter_other (graph : dict nat) (sets : gmap nat (gset Z))
    (f : gset Z → gset Z) (r : nat) :
  r ∉ graph.*2 →
  Shared.contents graph (alter f r sets) = Shared.contents graph sets.
Proof.
  induction graph as [| [k r'] graph IH]; simpl; [done |].
  intros [Hne Hr]%not_elem_of_cons.
  rewrite lookup_alter_ne by done. by rewrite IH.
Qed.

(** A change of the set object of a key that owns it is a change under that
    key. *)
Lemma contents_alter (graph : dict nat) (sets : gmap nat (gset Z))
    (f : gset Z → gset Z) (a_id : Z) (r : nat) :
  NoDup graph.*2 → dict_get graph a_id = Ok r → is_Some (sets !! r) →
  Shared.contents graph (alter f r sets)
  = dict_update (Shared.contents graph sets) a_id f.
Proof.
  intros Hnodup Hr [s Hs].
  induction graph as [| [k r'] graph IH]; simpl in *; [done |].
  apply NoDup_cons in Hnodup as [Hr' Hnodup].
  case_bool_decide as Hk.
  - injection Hr as ->. rewrite lookup_alter_eq, Hs. simpl.
    by rewrite contents_alter_other.
  - rewrite lookup_alter_ne.
    + by rewrite IH.
    + intros ->. by apply dict_get_ref in Hr.
Qed.

(** On a graph in which no set object is stored twice, the graph builder on
    the store does to the sets under the keys what the graph builder on a
    dictionary of sets does. *)
Lemma owned_sets_refine (graph : dict nat) (sets : gmap nat (gset Z))
    (library : dict Message) :
  NoDup graph.*2 → Shared.allocated graph sets →
  build_relationships (Shared.contents graph sets) library
  = (Shared.contents graph (Shared.build_relationships graph library sets).1,
     (Shared.build_relationships graph library sets).2).
Proof.
  intros Hnodup Halloc.
  unfold build_relationships, Shared.build_relationships.
  rewrite dict_keys_contents.
  apply (for_each_refine (Shared.contents graph) (Shared.allocated graph));
    [| done].
  intros a_id s _ Hs.
  apply (for_each_refine (Shared.contents graph) (Shared.allocated graph));
    [| done].
  clear s Hs. intros b_id s _ Hs.
  unfold relate, Shared.relate, add_successor, Shared.add_successor.
  destruct (dict_get library a_id) as [a | e]; [| done].
  destruct (dict_get library b_id) as [b | e]; [| done].
  destruct (causal a b); [| done].
  rewrite dict_get_contents.
  destruct (dict_get graph a_id) as [r | e] eqn:Hr; simpl; [| done].
  split.
  - intros k r' Hk. rewrite lookup_alter.
    destruct (Hs k r' Hk) as [s' Hs']. case_decide; [subst |]; by rewrite Hs'.
  - f_equal. symmetry. by apply contents_alter; [| | eapply Hs].
Qed.

Example owned_sets_refine_scenario :
  Shared.contents owned_graph owned_sets = scenario_skeleton
  ∧ Shared.contents owned_graph
      (Shared.build_relationships owned_graph scenario_library owned_sets).1
    = scenario_graph.
Proof. by vm_compute. Qed.

(** ** Sequence enumerator: what is listed, and how often *)

Section listing.
Variable set_iter : gset Z → list Z.
Hypothesis set_iter_perm : ∀ X : gset Z, set_iter X ≡ₚ elements X.
Variables (max_depth : Z) (graph : dict (gset Z)) (library : dict Message).

Lemma set_iter_NoDup (X : gset Z) : NoDup (set_iter X).
Proof. rewrite set_iter_perm. apply NoDup_elements. Qed.

(** What the loop over the successors appends, given what each call
    appends. *)
Lemma successors_appended (fuel : nat) (starting_id : Z) (accumulated : list Z) :
  (∀ y dest dest' r,
     recursive_build_sequences set_iter fuel y (accumulated ++ [starting_id]) dest
       max_depth graph library = Some (dest', r) →
     ∃ new, dest' = dest ++ new ∧ NoDup new
            ∧ ∀ s, s ∈ new → ∃ p, s = (accumulated ++ [starting_id]) ++ y :: p) →
  ∀ ys, NoDup ys →
    ∀ dest dest' r,
      for_each_fuel ys
        (λ y d, recursive_build_sequences set_iter fuel y
                  (accumulated ++ [starting_id]) d max_depth graph library)
        dest = Some (dest', r) →
      ∃ new, dest' = dest ++ new ∧ NoDup new
             ∧ ∀ s, s ∈ new →
                    ∃ z q, z ∈ ys ∧ s = accumulated ++ starting_id :: z :: q.
Proof.
  intros Hcall.
  induction ys as [| y ys IH]; intros Hnodup dest dest' r; simpl.
  - intros [= <- <-]. exists []. rewrite app_nil_r.
    split; [done |]. split; [constructor |]. by intros s Hs%elem_of_nil.
  - apply NoDup_cons in Hnodup as [Hy Hys].
    destruct (recursive_build_sequences _ fuel y _ dest _ _ _)
      as [[d [[] | e]] |] eqn:Hbody; [| | done];
      apply Hcall in Hbody as (new1 & -> & Hnodup1 & Hnew1).
    + intros (new2 & -> & Hnodup2 & Hnew2)%IH; [| done].
      exists (new1 ++ new2). split; [by rewrite app_assoc |].
      split.
      * apply NoDup_app. split; [done |]. split; [| done].
        intros s [p1 Hs1]%Hnew1 (z & q & Hz & Hs2)%Hnew2.
        rewrite <- app_assoc in Hs1. simpl in Hs1.
        rewrite Hs1 in Hs2. apply app_inv_head in Hs2.
        injection Hs2 as -> _. done.
      * intros s [Hs | Hs]%elem_of_app.
        -- destruct (Hnew1 s Hs) as [p ->]. rewrite <- app_assoc.
           exists y, p. split; [apply list_elem_of_here | done].
        -- destruct (Hnew2 s Hs) as (z & q & Hz & ->).
           exists z, q. split; [by apply list_elem_of_further | done].
    + intros [= <- <-]. exists new1. split; [done |]. split; [done |].
      intros s [p ->]%Hnew1. rewrite <- app_assoc.
      exists y, p. split; [apply list_elem_of_here | done].
Qed.

(** What one call appends: sequences that extend the accumulated one through
    [starting_id], no sequence twice. *)
Lemma rbs_appended (fuel : nat) :
  ∀ starting_id accumulated dest dest' r,
    recursive_build_sequences set_iter fuel starting_id accumulated dest
      max_depth graph library = Some (dest', r) →
    ∃ new, dest' = dest ++ new ∧ NoDup new
           ∧ ∀ s, s ∈ new → ∃ p, s = accumulated ++ starting_id :: p.
Proof.
  induction fuel as [| fuel IH]; intros start acc dest dest' r; [done |].
  rewrite rbs_unfold.
  assert (∃ new : list (list Z), dest = dest ++ new ∧ NoDup new
            ∧ ∀ s, s ∈ new → ∃ p, s = acc ++ start :: p) as Hsame.
  { exists []. rewrite app_nil_r.
    split; [done |]. split; [constructor |]. by intros s Hs%elem_of_nil. }
  case_bool_decide; [by intros [= <- <-] |].
  case_bool_decide; [by intros [= <- <-] |].
  destruct (dict_get library start) as [m | e]; [| by intros [= <- <-]].
  case_bool_decide.
  { intros [= <- <-]. exists [acc ++ [start]].
    split; [done |]. split; [apply NoDup_singleton |].
    intros s ->%list_elem_of_singleton. by exists []. }
  destruct (dict_get graph start) as [successors | e]; [| by intros [= <- <-]].
  intros Hloop.
  eapply successors_appended in Hloop as (new & -> & Hnodup & Hnew);
    [| intros y d d' r'; apply IH | apply set_iter_NoDup].
  exists new. split; [done |]. split; [done |].
  intros s (z & q & _ & ->)%Hnew. by eexists.
Qed.

Lemma build_sequences_NoDup (starting_id : Z) (sequences : list (list Z)) :
  build_sequences set_iter starting_id max_depth graph library = Some (Ok sequences) →
  NoDup sequences.
Proof.
  intros Hrun%build_sequences_Ok_inv.
  by apply rbs_appended in Hrun as (new & -> & Hnodup & _).
Qed.

Lemma generate_from_NoDup (keys : list Z) :
  NoDup keys →
  ∀ sequences out,
    generate_from set_iter keys sequences library graph max_depth = Some (Ok out) →
    ∃ new, out = sequences ++ new ∧ NoDup new
           ∧ ∀ s, s ∈ new → ∃ k, k ∈ keys ∧ head s = Some k.
Proof.
  induction keys as [| k keys IH]; intros Hkeys sequences out; simpl.
  - intros [= <-]. exists []. rewrite app_nil_r.
    split; [done |]. split; [constructor |]. by intros s Hs%elem_of_nil.
  - apply NoDup_cons in Hkeys as [Hk Hkeys].
    destruct (dict_get library k) as [m | e]; [| done].
    case_bool_decide.
    + destruct (build_sequences set_iter k max_depth graph library)
        as [[found | e] |] eqn:Hfound; [| done | done].
      intros (new & -> & Hnodup & Hnew)%IH; [| done].
      exists (found ++ new). split; [by rewrite app_assoc |].
      assert (∀ s, s ∈ found → head s = Some k) as Hhead.
      { intros s Hs.
        by apply (build_sequences_spec _ set_iter_perm _ _ _ _ _ Hfound) in Hs
          as (? & _). }
      split.
      * apply NoDup_app. split; [by eapply build_sequences_NoDup |].
        split; [| done].
        intros s Hs%Hhead (k' & Hk' & Hs')%Hnew. congruence.
      * intros s [Hs | Hs]%elem_of_app.
        -- exists k. split; [apply list_elem_of_here | by apply Hhead].
        -- destruct (Hnew s Hs) as (k' & Hk' & ?).
           exists k'. split; [by apply list_elem_of_further | done].
    + intros (new & -> & Hnodup & Hnew)%IH; [| done].
      exists new. split; [done |]. split; [done |].
      intros s (k' & Hk' & ?)%Hnew.
      exists k'. split; [by apply list_elem_of_further | done].
Qed.
End listing.

Lemma generate_from_raise_inv (set_iter : gset Z → list Z) (max_depth : Z)
    (graph : dict (gset Z)) (library : dict Message) (keys : list Z) :
  ∀ sequences e,
    generate_from set_iter keys sequences library graph max_depth = Some (Raise e) →
    ∃ k, k ∈ keys
         ∧ (dict_get library k = Raise e
            ∨ ∃ m, dict_get library k = Ok m ∧ position m = INITIAL
                   ∧ build_sequences set_iter k max_depth graph library
                     = Some (Raise e)).
Proof.
  induction keys as [| k keys IH]; intros sequences e; simpl; [done |].
  destruct (dict_get library k) as [m | e'] eqn:Hm.
  - case_bool_decide as Hinit.
    + destruct (build_sequences set_iter k max_depth graph library)
        as [[found | e'] |] eqn:Hfound; [| | done].
      * intros (k' & Hk' & Hcase)%IH.
        exists k'. split; [by apply list_elem_of_further | done].
      * intros [= ->]. exists k. split; [apply list_elem_of_here |].
        right. by exists m.
    + intros (k' & Hk' & Hcase)%IH.
      exists k'. split; [by apply list_elem_of_further | done].
  - intros [= ->]. exists k. split; [apply list_elem_of_here | by left].
Qed.

(** X2: the enumerator lists exactly the chains: a sequence is returned by
    [build_sequences] if and only if it starts at the start id, follows edges
    of the graph through messages that are not FINAL to a FINAL message,
    repeats no id and has at most [max_depth] ids; [generate_all_sequences]
    returns exactly such sequences from the INITIAL messages. *)
Theorem enumeration_exact (set_iter : gset Z → list Z)
    (library : dict Message) (graph : dict (gset Z)) (max_depth : Z) :
  (∀ X : gset Z, set_iter X ≡ₚ elements X) →
  (∀ starting_id sequences,
     build_sequences set_iter starting_id max_depth graph library
     = Some (Ok sequences) →
     ∀ s, s ∈ sequences ↔
          head s = Some starting_id ∧ path_to_final library graph s
          ∧ NoDup s ∧ len s ≤ max_depth)
  ∧ (∀ sequences,
       generate_all_sequences set_iter library graph max_depth = Some (Ok sequences) →
       ∀ s, s ∈ sequences ↔
            ∃ starting_id m,
              dict_get library starting_id = Ok m ∧ position m = INITIAL
              ∧ head s = Some starting_id ∧ path_to_final library graph s
              ∧ NoDup s ∧ len s ≤ max_depth).
Proof.
  intros Hiter. split.
  - intros starting_id sequences Hrun s.
    apply (build_sequences_spec _ Hiter _ _ _ _ _ Hrun).
  - intros sequences Hrun s.
    apply (generate_all_sequences_spec _ Hiter _ _ _ _ Hrun).
Qed.

Lemma scenario_chain : path_to_final scenario_library scenario_graph [1; 2].
Proof.
  apply (path_step _ _ 1 2 [] login); [done | done | |].
  - exists {[2]}. split; [done |]. by apply elem_of_singleton.
  - by apply (path_final _ _ 2 login_ack).
Qed.

Lemma enumeration_exact_witness :
  generate_all_sequences elements scenario_library scenario_graph 2
  = Some (Ok [[1; 2]])
  ∧ [1; 2] ∈ [[1; 2]].
Proof.
  assert (generate_all_sequences elements scenario_library scenario_graph 2
          = Some (Ok [[1; 2]])) as Hrun by by vm_compute.
  split; [exact Hrun |].
  destruct (enumeration_exact elements scenario_library scenario_graph 2)
    as [_ Hall]; [done |].
  apply (Hall _ Hrun). exists 1, login.
  split; [done |]. split; [done |]. split; [done |].
  split; [apply scenario_chain |].
  split; [compute_done | by vm_compute].
Defined.

(** X3: no sequence is listed twice: the list returned by [build_sequences]
    has no duplicates, and neither has the list returned by
    [generate_all_sequences] when the keys of the library are distinct. *)
Theorem sequences_listed_once (set_iter : gset Z → list Z)
    (library : dict Message) (graph : dict (gset Z)) (max_depth : Z) :
  (∀ X : gset Z, set_iter X ≡ₚ elements X) →
  (∀ starting_id sequences,
     build_sequences set_iter starting_id max_depth graph library
     = Some (Ok sequences) →
     NoDup sequences)
  ∧ (∀ sequences,
       NoDup (dict_keys library) →
       generate_all_sequences set_iter library graph max_depth = Some (Ok sequences) →
       NoDup sequences).
Proof.
  intros Hiter. split.
  - intros starting_id sequences. by apply build_sequences_NoDup.
  - intros sequences Hkeys Hrun.
    by apply (generate_from_NoDup _ Hiter) in Hrun as (new & -> & Hnodup & _).
Qed.

(** Two INITIAL messages that share their FINAL successors. *)
Lemma sequences_listed_once_witness :
  generate_all_sequences elements
    [(1, login); (2, login_ack); (3, mkMessage 3 "X" "Y" "retry" REQ INITIAL)]
    [(1, {[2]}); (2, ∅); (3, {[2]})] 2
  = Some (Ok [[1; 2]; [3; 2]])
  ∧ NoDup [[1; 2]; [3; 2]].
Proof.
  set (library := [(1, login); (2, login_ack);
                   (3, mkMessage 3 "X" "Y" "retry" REQ INITIAL)]).
  set (graph := [(1, {[2]}); (2, ∅); (3, {[2]})] : dict (gset Z)).
  assert (generate_all_sequences elements library graph 2
          = Some (Ok [[1; 2]; [3; 2]])) as Hrun by by vm_compute.
  split; [exact Hrun |].
  destruct (sequences_listed_once elements library graph 2) as [_ Hall]; [done |].
  apply Hall; [compute_done | exact Hrun].
Defined.

(** ** Sequence enumerator: the order of traversal and the depth bound *)

Section two_orders.
Variables set_iter1 set_iter2 : gset Z → list Z.
Hypothesis set_iter1_perm : ∀ X : gset Z, set_iter1 X ≡ₚ elements X.
Hypothesis set_iter2_perm : ∀ X : gset Z, set_iter2 X ≡ₚ elements X.
Variables (max_depth : Z) (graph : dict (gset Z)) (library : dict Message).

Lemma build_sequences_order_raise (starting_id : Z) (e1 : exn) :
  build_sequences set_iter1 starting_id max_depth graph library = Some (Raise e1) →
  ∃ e2, build_sequences set_iter2 starting_id max_depth graph library
        = Some (Raise e2).
Proof.
  intros Hrun.
  apply (build_sequences_raises set_iter2 set_iter2_perm).
  apply (build_sequences_raises set_iter1 set_iter1_perm). by exists e1.
Qed.

Lemma build_sequences_order_Ok (starting_id : Z) (sequences1 : list (list Z)) :
  build_sequences set_iter1 starting_id max_depth graph library
  = Some (Ok sequences1) →
  ∃ sequences2,
    build_sequences set_iter2 starting_id max_depth graph library
    = Some (Ok sequences2)
    ∧ sequences1 ≡ₚ sequences2.
Proof.
  intros Hrun1.
  destruct (build_sequences_total set_iter2 max_depth graph library starting_id)
    as [[sequences2 | e2] Hrun2].
  - exists sequences2. split; [done |].
    apply NoDup_Permutation.
    + by eapply (build_sequences_NoDup set_iter1).
    + by eapply (build_sequences_NoDup set_iter2).
    + intros s.
      rewrite (build_sequences_spec _ set_iter1_perm _ _ _ _ _ Hrun1).
      by rewrite (build_sequences_spec _ set_iter2_perm _ _ _ _ _ Hrun2).
  - assert (∃ e1, build_sequences set_iter1 starting_id max_depth graph library
                  = Some (Raise e1)) as [e1 He1].
    { apply (build_sequences_raises set_iter1 set_iter1_perm).
      apply (build_sequences_raises set_iter2 set_iter2_perm). by exists e2. }
    congruence.
Qed.

Lemma generate_from_order_Ok (keys : list Z) :
  ∀ sequences1 sequences2 out1,
    sequences1 ≡ₚ sequences2 →
    generate_from set_iter1 keys sequences1 library graph max_depth = Some (Ok out1) →
    ∃ out2,
      generate_from set_iter2 keys sequences2 library graph max_depth = Some (Ok out2)
      ∧ out1 ≡ₚ out2.
Proof.
  induction keys as [| k keys IH]; intros sequences1 sequences2 out1 Hperm; simpl.
  - intros [= <-]. by exists sequences2.
  - destruct (dict_get library k) as [m | e]; [| done].
    case_bool_decide; [| by apply IH].
    destruct (build_sequences set_iter1 k max_depth graph library)
      as [[found1 | e] |] eqn:Hfound1; [| done | done].
    destruct (build_sequences_order_Ok k found1 Hfound1) as (found2 & -> & Hfound).
    apply IH. by rewrite Hperm, Hfound.
Qed.
End two_orders.

(** X4: the order in which the sets of successors are traversed decides
    neither whether the enumeration returns or raises nor which sequences it
    returns: with another order the list returned is a permutation. *)
Theorem traversal_order_irrelevant (set_iter1 set_iter2 : gset Z → list Z)
    (library : dict Message) (graph : dict (gset Z)) (max_depth : Z) :
  (∀ X : gset Z, set_iter1 X ≡ₚ elements X) →
  (∀ X : gset Z, set_iter2 X ≡ₚ elements X) →
  (∀ starting_id sequences1,
     build_sequences set_iter1 starting_id max_depth graph library
     = Some (Ok sequences1) →
     ∃ sequences2,
       build_sequences set_iter2 starting_id max_depth graph library
       = Some (Ok sequences2)
       ∧ sequences1 ≡ₚ sequences2)
  ∧ (∀ starting_id e1,
       build_sequences set_iter1 starting_id max_depth graph library
       = Some (Raise e1) →
       ∃ e2, build_sequences set_iter2 starting_id max_depth graph library
             = Some (Raise e2))
  ∧ (∀ sequences1,
       generate_all_sequences set_iter1 library graph max_depth
       = Some (Ok sequences1) →
       ∃ sequences2,
         generate_all_sequences set_iter2 library graph max_depth
         = Some (Ok sequences2)
         ∧ sequences1 ≡ₚ sequences2)
  ∧ (∀ e1,
       generate_all_sequences set_iter1 library graph max_depth = Some (Raise e1) →
       ∃ e2, generate_all_sequences set_iter2 library graph max_depth
             = Some (Raise e2)).
Proof.
  intros Hiter1 Hiter2. split; [| split; [| split]].
  - intros starting_id sequences1. by apply build_sequences_order_Ok.
  - intros starting_id e1. by apply build_sequences_order_raise.
  - intros sequences1. by apply generate_from_order_Ok.
  - intros e1 (k & Hk & Hcase)%generate_from_raise_inv.
    destruct Hcase as [Hget | (m & Hm & Hinit & Hrun)].
    + apply dict_get_raise in Hget as [_ Hget]. done.
    + destruct (build_sequences_order_raise _ _ Hiter1 Hiter2 _ _ _ _ _ Hrun)
        as [e2 He2].
      by eapply generate_from_raises.
Qed.

Lemma traversal_order_irrelevant_witness :
  build_sequences elements 1 3 [(1, {[2; 4]}); (2, ∅); (4, ∅)]
    [(1, login); (2, login_ack); (4, login_ack)]
  = Some (Ok [[1; 4]; [1; 2]])
  ∧ ∃ sequences2,
      build_sequences (λ X, reverse (elements X)) 1 3
        [(1, {[2; 4]}); (2, ∅); (4, ∅)]
        [(1, login); (2, login_ack); (4, login_ack)]
      = Some (Ok sequences2)
      ∧ [[1; 4]; [1; 2]] ≡ₚ sequences2.
Proof.
  set (graph := [(1, {[2; 4]}); (2, ∅); (4, ∅)] : dict (gset Z)).
  set (library := [(1, login); (2, login_ack); (4, login_ack)]).
  assert (build_sequences elements 1 3 graph library
          = Some (Ok [[1; 4]; [1; 2]])) as Hrun by by vm_compute.
  split; [exact Hrun |].
  destruct (traversal_order_irrelevant elements (λ X, reverse (elements X))
              library graph 3) as [Hall _]; [done | |].
  { intros X. apply reverse_Permutation. }
  by apply Hall.
Defined.

Example traversal_order_reversed :
  build_sequences (λ X, reverse (elements X)) 1 3
    [(1, {[2; 4]}); (2, ∅); (4, ∅)] [(1, login); (2, login_ack); (4, login_ack)]
  = Some (Ok [[1; 2]; [1; 4]]).
Proof. by vm_compute. Qed.



(** X6: [recursive_build_sequences] only appends to the destination list,
    also when it raises: what the list held stays in place, and every
    sequence appended starts with the accumulated ids followed by
    [starting_id]. *)
Theorem destination_only_appended (set_iter : gset Z → list Z) (fuel : nat)
    (starting_id : Z) (accumulated : list Z) (dest dest' : list (list Z))
    (max_depth : Z) (graph : dict (gset Z)) (library : dict Message)
    (r : result unit) :
  (∀ X : gset Z, set_iter X ≡ₚ elements X) →
  recursive_build_sequences set_iter fuel starting_id accumulated dest
    max_depth graph library = Some (dest', r) →
  ∃ new, dest' = dest ++ new
         ∧ ∀ s, s ∈ new → (accumulated ++ [starting_id]) `prefix_of` s.
Proof.
  intros Hiter Hrun.
  apply (rbs_appended _ Hiter) in Hrun as (new & -> & _ & Hnew).
  exists new. split; [done |].
  intros s [p ->]%Hnew. exists p. by rewrite <- app_assoc.
Qed.

(** The unknown successor [9] is met after the sequence [[1; 2]] is found. *)
Lemma destination_only_appended_witness :
  recursive_build_sequences (λ X, reverse (elements X)) 3 1 [] [[7; 8]] 2
    [(1, {[2; 9]}); (2, ∅)] scenario_library
  = Some ([[7; 8]; [1; 2]], Raise (KeyError 9))
  ∧ ∃ new, [[7; 8]; [1; 2]] = [[7; 8]] ++ new
           ∧ ∀ s, s ∈ new → ([] ++ [1]) `prefix_of` s.
Proof.
  set (graph := [(1, {[2; 9]}); (2, ∅)] : dict (gset Z)).
  set (set_iter := λ X : gset Z, reverse (elements X)).
  assert (recursive_build_sequences set_iter 3 1 [] [[7; 8]] 2 graph scenario_library
          = Some ([[7; 8]; [1; 2]], Raise (KeyError 9))) as Hrun by by vm_compute.
  split; [exact Hrun |].
  apply (destination_only_appended set_iter 3 1 [] [[7; 8]] _ 2 graph
           scenario_library (Raise (KeyError 9))); [| exact Hrun].
  intros X. apply reverse_Permutation.
Defined.

(** ** Sequence projector: repeated and combined projections *)

Lemma project_sequences_unfold (sequences : list (list Z)) (whitelist : gset Z) :
  project_sequences sequences whitelist
  = sort_by_key len
      (first_occurrences
         (filter (λ s : list Z, 2 ≤ len s) (sub_sequence whitelist <$> sequences))).
Proof. unfold project_sequences. cbv zeta. by rewrite project_loop. Qed.

Lemma project_sequences_elem (sequences : list (list Z)) (whitelist : gset Z)
    (t : list Z) :
  t ∈ project_sequences sequences whitelist ↔
  ∃ s, s ∈ sequences ∧ t = sub_sequence whitelist s ∧ 2 ≤ len t.
Proof.
  rewrite project_sequences_unfold, sort_by_key_perm, first_occurrences_elem,
    list_elem_of_filter, list_elem_of_fmap.
  split.
  - intros [Hlen (s & -> & Hs)]. by exists s.
  - intros (s & Hs & -> & Hlen). split; [done | by exists s].
Qed.

Lemma project_sequences_NoDup (sequences : list (list Z)) (whitelist : gset Z) :
  NoDup (project_sequences sequences whitelist).
Proof.
  rewrite project_sequences_unfold, sort_by_key_perm.
  apply first_occurrences_NoDup.
Qed.

Lemma project_sequences_sorted (sequences : list (list Z)) (whitelist : gset Z) :
  StronglySorted (λ t u : list Z, len t ≤ len u)
    (project_sequences sequences whitelist).
Proof. rewrite project_sequences_unfold. apply sort_by_key_sorted. Qed.

Lemma filter_all {A : Type} (P : A → Prop) `{!∀ x, Decision (P x)} (l : list A) :
  (∀ x, x ∈ l → P x) → filter P l = l.
Proof.
  induction l as [| x l IH]; intros Hall; [done |].
  rewrite filter_cons_True by apply Hall, list_elem_of_here.
  f_equal. apply IH. intros y Hy. by apply Hall, list_elem_of_further.
Qed.

Lemma fmap_fixed {A : Type} (f : A → A) (l : list A) :
  (∀ x, x ∈ l → f x = x) → f <$> l = l.
Proof.
  induction l as [| x l IH]; intros Hall; [done |]. simpl.
  rewrite Hall by apply list_elem_of_here.
  f_equal. apply IH. intros y Hy. by apply Hall, list_elem_of_further.
Qed.

Lemma first_occurrences_fixed {A : Type} `{EqDecision A} (l : list A) :
  NoDup l → first_occurrences l = l.
Proof.
  induction 1 as [| x l Hx Hl IH]; simpl; [done |].
  rewrite IH. f_equal. apply filter_all. by intros y Hy ->.
Qed.

Lemma first_occurrences_length {A : Type} `{EqDecision A} (l : list A) :
  (length (first_occurrences l) ≤ length l)%nat.
Proof.
  induction l as [| x l IH]; simpl; [done |].
  apply le_n_S. etrans; [apply length_filter | done].
Qed.

Lemma sort_by_key_fixed {A : Type} (key : A → Z) (l : list A) :
  StronglySorted (λ a b, key a ≤ key b) l → sort_by_key key l = l.
Proof. intros Hsorted. symmetry. by apply stable_sort_unique. Qed.

Lemma sub_sequence_fixed (whitelist : gset Z) (s : list Z) :
  sub_sequence whitelist (sub_sequence whitelist s) = sub_sequence whitelist s.
Proof.
  unfold sub_sequence. apply filter_all.
  by intros x [? _]%list_elem_of_filter.
Qed.

(** X7: [project_sequences] is idempotent: projecting its output again onto
    the same whitelist returns that output. *)
Theorem project_sequences_idempotent (sequences : list (list Z)) (whitelist : gset Z) :
  project_sequences (project_sequences sequences whitelist) whitelist
  = project_sequences sequences whitelist.
Proof.
  set (output := project_sequences sequences whitelist).
  rewrite (project_sequences_unfold output).
  assert (∀ t, t ∈ output → sub_sequence whitelist t = t ∧ 2 ≤ len t) as Hout.
  { intros t (s & _ & -> & Hlen)%project_sequences_elem.
    split; [apply sub_sequence_fixed | done]. }
  rewrite fmap_fixed by (intros t Ht; by apply Hout).
  rewrite filter_all by (intros t Ht; by apply Hout).
  rewrite first_occurrences_fixed by apply project_sequences_NoDup.
  apply sort_by_key_fixed, project_sequences_sorted.
Qed.

(** X8: projecting onto one whitelist and then onto another gives the
    sub-sequences that projecting onto the ids of both gives: the two lists
    are permutations of each other (sub-sequences of one length may come out
    in another order). *)
Theorem project_sequences_twice (sequences : list (list Z)) (w1 w2 : gset Z) :
  project_sequences (project_sequences sequences w1) w2
  ≡ₚ project_sequences sequences (w1 ∩ w2).
Proof.
  apply NoDup_Permutation; [apply project_sequences_NoDup.. |].
  assert (∀ s, sub_sequence w2 (sub_sequence w1 s) = sub_sequence (w1 ∩ w2) s)
    as Hsub.
  { intros s. unfold sub_sequence. rewrite list_filter_filter.
    apply list_filter_iff. intros x. rewrite elem_of_intersection. tauto. }
  intros t. rewrite !project_sequences_elem. split.
  - intros (u & (s & Hs & -> & Hu)%project_sequences_elem & -> & Ht).
    exists s. by rewrite <- Hsub.
  - intros (s & Hs & -> & Ht). rewrite <- Hsub in Ht |- *.
    exists (sub_sequence w1 s). split; [| done].
    apply project_sequences_elem. exists s. split; [done |]. split; [done |].
    etrans; [exact Ht |]. unfold len, sub_sequence at 1.
    apply inj_le, length_filter.
Qed.

(** The ties of one length may come out in another order. *)
Example project_sequences_twice_order :
  project_sequences (project_sequences [[1; 2; 3; 9]; [4; 5]] {[1; 2; 3; 4; 5; 9]})
    {[1; 2; 4; 5]}
  = [[4; 5]; [1; 2]]
  ∧ project_sequences [[1; 2; 3; 9]; [4; 5]] ({[1; 2; 3; 4; 5; 9]} ∩ {[1; 2; 4; 5]})
    = [[1; 2]; [4; 5]].
Proof. by vm_compute. Qed.

(** X9: [project_sequences] returns the empty list exactly when no input
    sequence holds two occurrences of whitelisted ids; in particular for no
    sequences and for an empty whitelist. It never returns more sequences
    than it is given. *)
Theorem project_sequences_empty (sequences : list (list Z)) (whitelist : gset Z) :
  (project_sequences sequences whitelist = [] ↔
   ∀ s, s ∈ sequences → len (sub_sequence whitelist s) < 2)
  ∧ project_sequences sequences ∅ = []
  ∧ (length (project_sequences sequences whitelist) ≤ length sequences)%nat.
Proof.
  assert (∀ w, project_sequences sequences w = [] ↔
               ∀ s, s ∈ sequences → len (sub_sequence w s) < 2) as Hempty.
  { intros w. split.
    - intros Hnil s Hs.
      destruct (decide (2 ≤ len (sub_sequence w s))) as [Hlen |]; [| lia].
      assert (sub_sequence w s ∈ project_sequences sequences w) as Hin.
      { apply project_sequences_elem. by exists s. }
      rewrite Hnil in Hin. by apply elem_of_nil in Hin.
    - intros Hall.
      destruct (project_sequences sequences w) as [| t ts] eqn:Hout; [done |].
      assert (t ∈ project_sequences sequences w) as Hin.
      { rewrite Hout. apply list_elem_of_here. }
      apply project_sequences_elem in Hin as (s & Hs & -> & Hlen).
      apply Hall in Hs. lia. }
  split; [apply Hempty |]. split.
  - apply Hempty. intros s _.
    replace (sub_sequence ∅ s) with ([] : list Z); [done |].
    symmetry. unfold sub_sequence.
    induction s as [| x s IH]; [done |].
    by rewrite filter_cons_False by apply not_elem_of_empty.
  - rewrite project_sequences_unfold, sort_by_key_perm.
    pose proof (first_occurrences_length
                  (filter (λ s : list Z, 2 ≤ len s)
                     (sub_sequence whitelist <$> sequences))) as Hfirst.
    pose proof (length_filter (λ s : list Z, 2 ≤ len s)
                  (sub_sequence whitelist <$> sequences)) as Hfilter.
    rewrite length_fmap in Hfilter. lia.
Qed.

Lemma project_sequences_empty_witness :
  project_sequences [[1; 5; 6]; [7; 1]; []] {[1; 9]} = [].
Proof.
  destruct (project_sequences_empty [[1; 5; 6]; [7; 1]; []] {[1; 9]})
    as [[_ Hnone] _].
  apply Hnone. intros s Hs.
  repeat (apply elem_of_cons in Hs as [-> | Hs]; [by vm_compute |]).
  by apply elem_of_nil in Hs.
Defined.

(** ** Pair filter on sequences without repetition *)

Lemma first_at_NoDup (s : list Z) (x : Z) (i : nat) :
  NoDup s → s !! i = Some x → first_at s x i.
Proof.
  intros Hnodup Hi. split; [done |].
  intros j Hj Hx. pose proof (NoDup_lookup s i j x Hnodup Hi Hx). lia.
Qed.

Lemma pair_filter_one (s : list Z) (a b : Z) :
  (a ∈ s ∧ b ∉ s) ∨ ((a ∉ s) ∧ b ∈ s) → pair_filter s a b = Ok false.
Proof.
  unfold pair_filter. intros [[Ha Hb] | [Ha Hb]].
  - by rewrite (bool_decide_eq_true_2 _ Ha), (bool_decide_eq_false_2 _ Hb).
  - by rewrite (bool_decide_eq_false_2 _ Ha), (bool_decide_eq_true_2 _ Hb).
Qed.

Lemma pair_filter_NoDup (s : list Z) (a b : Z) :
  NoDup s →
  pair_filter s a b = Ok true ↔
  ((a ∉ s) ∧ (b ∉ s)) ∨ ∃ l1 l2, s = l1 ++ a :: b :: l2.
Proof.
  intros Hnodup. split.
  - destruct (decide (a ∈ s)) as [Ha | Ha]; destruct (decide (b ∈ s)) as [Hb | Hb].
    + destruct (list_index_first s a Ha) as (i & _ & Hi).
      destruct (list_index_first s b Hb) as (j & _ & Hj).
      rewrite (pair_filter_both s a b i j Hi Hj).
      intros [= Hij%bool_decide_eq_true]. right.
      replace j with (S i) in Hj by lia.
      exists (take i s), (drop (S (S i)) s).
      rewrite <- (drop_S s b (S i)) by apply Hj.
      symmetry. apply take_drop_middle, Hi.
    + rewrite pair_filter_one by tauto. done.
    + rewrite pair_filter_one by tauto. done.
    + by left.
  - intros [[Ha Hb] | (l1 & l2 & ->)]; [by apply pair_filter_neither |].
    rewrite (pair_filter_both _ a b (length l1) (S (length l1))).
    + f_equal. apply bool_decide_eq_true_2. lia.
    + apply first_at_NoDup; [done | by apply list_lookup_middle].
    + apply first_at_NoDup; [done |].
      rewrite lookup_app_r by lia.
      by replace (S (length l1) - length l1)%nat with 1%nat by lia.
Qed.

(** X10: on a sequence that repeats no id, [pair_filter] answers true
    exactly when neither id occurs or [a] stands immediately before [b]. *)
Theorem pair_filter_adjacent (s : list Z) (a b : Z) :
  NoDup s →
  pair_filter s a b = Ok true ↔
  ((a ∉ s) ∧ (b ∉ s)) ∨ ∃ l1 l2, s = l1 ++ a :: b :: l2.
Proof. apply pair_filter_NoDup. Qed.

Lemma pair_filter_adjacent_witness :
  pair_filter [4; 1; 2; 3] 1 2 = Ok true.
Proof.
  apply (pair_filter_adjacent [4; 1; 2; 3] 1 2); [compute_done |].
  right. by exists [4], [3].
Defined.

(** With a repetition the first occurrences decide. *)
Example pair_filter_repetition :
  pair_filter [2; 1; 2] 1 2 = Ok false.
Proof. by vm_compute. Qed.

(** X11: the projections of enumerated sequences repeat no id and hold
    whitelisted ids only, so that [pair_filter] decides on them whether [a]
    stands immediately before [b]. *)
Theorem projected_sequences_pair_filter (set_iter : gset Z → list Z)
    (library : dict Message) (graph : dict (gset Z)) (max_depth : Z)
    (sequences : list (list Z)) (whitelist : gset Z) :
  (∀ X : gset Z, set_iter X ≡ₚ elements X) →
  generate_all_sequences set_iter library graph max_depth = Some (Ok sequences) →
  ∀ t, t ∈ project_sequences sequences whitelist →
       NoDup t
       ∧ (∀ x, x ∈ t → x ∈ whitelist)
       ∧ ∀ a b, pair_filter t a b = Ok true ↔
                ((a ∉ t) ∧ (b ∉ t)) ∨ ∃ l1 l2, t = l1 ++ a :: b :: l2.
Proof.
  intros Hiter Hrun t (s & Hs & -> & _)%project_sequences_elem.
  apply (generate_all_sequences_spec _ Hiter _ _ _ _ Hrun) in Hs
    as (_ & _ & _ & _ & _ & _ & Hnodup & _).
  assert (NoDup (sub_sequence whitelist s)) as Hsub by by apply NoDup_filter.
  split; [done |]. split.
  - by intros x [? _]%list_elem_of_filter.
  - intros a b. by apply pair_filter_NoDup.
Qed.

Lemma projected_sequences_pair_filter_witness :
  generate_all_sequences elements scenario_library scenario_graph 2
  = Some (Ok [[1; 2]])
  ∧ project_sequences [[1; 2]] {[1; 2; 3]} = [[1; 2]]
  ∧ NoDup [1; 2].
Proof.
  assert (generate_all_sequences elements scenario_library scenario_graph 2
          = Some (Ok [[1; 2]])) as Hrun by by vm_compute.
  split; [exact Hrun |]. split; [by vm_compute |].
  destruct (projected_sequences_pair_filter elements scenario_library
              scenario_graph 2 [[1; 2]] {[1; 2; 3]} ltac:(done) Hrun [1; 2])
    as (Hnodup & _); [| done].
  by vm_compute; apply list_elem_of_here.
Defined.

(** ** Ingestion *)

(** *** Assignment to a key *)

Lemma dict_keys_set {V} (d : dict V) (k : Z) (v : V) :
  dict_keys (dict_set d k v)
  = dict_keys d ++ (if decide (k ∈ dict_keys d) then [] else [k]).
Proof.
  induction d as [| [k' v'] d IH]; simpl; [done |].
  case_bool_decide as Hk.
  - subst k'. rewrite decide_True by apply list_elem_of_here.
    by rewrite app_nil_r.
  - simpl. rewrite IH. f_equal. f_equal.
    destruct (decide (k ∈ dict_keys d)).
    + by rewrite decide_True by by apply list_elem_of_further.
    + by rewrite decide_False by (rewrite elem_of_cons; tauto).
Qed.

Lemma dict_get_set {V} (d : dict V) (k k' : Z) (v : V) :
  dict_get (dict_set d k v) k' = if decide (k' = k) then Ok v else dict_get d k'.
Proof.
  induction d as [| [k0 v0] d IH]; simpl.
  - case_bool_decide; case_decide; done.
  - destruct (decide (k = k0)) as [-> | Hk].
    + rewrite bool_decide_eq_true_2 by done. simpl.
      case_bool_decide; case_decide; done.
    + rewrite bool_decide_eq_false_2 by done. simpl. rewrite IH.
      case_bool_decide; case_decide; congruence.
Qed.

Lemma dict_set_NoDup {V} (d : dict V) (k : Z) (v : V) :
  NoDup (dict_keys d) → NoDup (dict_keys (dict_set d k v)).
Proof.
  intros Hnodup. rewrite dict_keys_set. case_decide; [by rewrite app_nil_r |].
  apply NoDup_app. split; [done |]. split; [| apply NoDup_singleton].
  intros x Hx ->%list_elem_of_singleton. done.
Qed.

(** *** Reading one record *)

Lemma parse_direction_Ok (original : string) (d : Direction) :
  parse_direction original = Ok d ↔
  (original = "req" ∧ d = REQ) ∨ (original = "resp" ∧ d = RESP).
Proof.
  unfold parse_direction. repeat case_bool_decide; subst; split;
    try (intros [= <-]; tauto); try done.
  - intros [[_ ->] | [[=] _]]. done.
  - intros [[? _] | [_ ->]]; done.
  - intros [[? _] | [? _]]; done.
Qed.

Lemma read_message_Parsed (int : string → result Z) (section_index : nat)
    (message : list string) (key : Z) (m : Message) :
  read_message int section_index message = Parsed (key, m) ↔
  ∃ id_text origin destination operation direction_text direction position,
    message !! 0%nat = Some id_text ∧ int id_text = Ok key
    ∧ message !! 1%nat = Some origin
    ∧ message !! 2%nat = Some destination
    ∧ message !! 3%nat = Some operation
    ∧ message !! 4%nat = Some direction_text
    ∧ parse_direction direction_text = Ok direction
    ∧ section_positions !! section_index = Some position
    ∧ m = mkMessage key origin destination operation direction position.
Proof.
  unfold read_message, item.
  destruct (message !! 0%nat) as [id_text |]; simpl.
  2: { split; [done | by intros (? & ? & ? & ? & ? & ? & ? & ? & _)]. }
  destruct (int id_text) as [id |] eqn:Hint; simpl.
  2: { split; [done |]. intros (? & ? & ? & ? & ? & ? & ? & [= <-] & ? & _).
       congruence. }
  destruct (message !! 1%nat) as [origin |]; simpl.
  2: { split; [done | by intros (? & ? & ? & ? & ? & ? & ? & ? & ? & ? & _)]. }
  destruct (message !! 2%nat) as [destination |]; simpl.
  2: { split; [done | by intros (? & ? & ? & ? & ? & ? & ? & ? & ? & ? & ? & _)]. }
  destruct (message !! 3%nat) as [operation |]; simpl.
  2: { split; [done |].
       by intros (? & ? & ? & ? & ? & ? & ? & ? & ? & ? & ? & ? & _). }
  destruct (message !! 4%nat) as [direction_text |]; simpl.
  2: { split; [done |].
       by intros (? & ? & ? & ? & ? & ? & ? & ? & ? & ? & ? & ? & ? & _). }
  destruct (parse_direction direction_text) as [direction |] eqn:Hd; simpl.
  2: { split; [done |].
       intros (? & ? & ? & ? & ? & ? & ? & ? & ? & ? & ? & ? & [= <-] & ? & _).
       congruence. }
  destruct (section_positions !! section_index) as [position |]; simpl.
  2: { split; [done |].
       by intros (? & ? & ? & ? & ? & ? & ? & ? & ? & ? & ? & ? & ? & ? & ? & _). }
  split.
  - intros [= <- <-]. by exists id_text, origin, destination, operation,
      direction_text, direction, position.
  - intros (? & ? & ? & ? & ? & ? & ? & [= <-] & Hid & [= <-] & [= <-] & [= <-]
            & [= <-] & Hd' & [= <-] & ->).
    unfold ingest_ret. repeat f_equal; congruence.
Qed.

Lemma read_message_well_formed (int : string → result Z) (record : nat * list string) :
  (∃ entry, read_message int record.1 record.2 = Parsed entry)
  ↔ well_formed int record.
Proof.
  destruct record as [i message]. unfold well_formed. simpl. split.
  - intros [[key m] (id_text & o & d & op & dt & dir & pos & H0 & Hid & H1 & H2
                     & H3 & H4 & Hdir & Hpos & _)%read_message_Parsed].
    split; [by apply lookup_lt_Some in Hpos |].
    split; [apply lookup_lt_Some in H4; lia |].
    split; [by exists id_text, key |].
    exists dt. split; [done |].
    apply parse_direction_Ok in Hdir as [[? _] | [? _]]; tauto.
  - intros (Hi & Hlen & (id_text & key & H0 & Hid) & dt & H4 & Hdt).
    destruct (lookup_lt_is_Some_2 message 1) as [o H1]; [lia |].
    destruct (lookup_lt_is_Some_2 message 2) as [d H2]; [lia |].
    destruct (lookup_lt_is_Some_2 message 3) as [op H3]; [lia |].
    destruct (lookup_lt_is_Some_2 section_positions i) as [pos Hpos]; [done |].
    assert (∃ dir, parse_direction dt = Ok dir) as [dir Hdir].
    { destruct Hdt as [-> | ->]; by eexists. }
    eexists (key, _). apply read_message_Parsed.
    by exists id_text, o, d, op, dt, dir, pos.
Qed.

(** *** Reading the sections *)

Lemma read_section_spec (int : string → result Z) (section_index : nat)
    (section : list (list string)) :
  ∀ library library',
    read_section int section_index section library = Parsed library' ↔
    ∃ entries,
      Forall2 (λ message entry, read_message int section_index message = Parsed entry)
        section entries
      ∧ library' = store_all library entries.
Proof.
  induction section as [| message section IH]; intros library library'; simpl.
  - split.
    + intros [= <-]. exists []. by split; [constructor |].
    + intros (entries & ->%Forall2_nil_inv_l & ->). done.
  - destruct (read_message int section_index message) as [entry | e] eqn:Hentry;
      simpl.
    + rewrite IH. split.
      * intros (entries & Hall & ->). exists (entry :: entries).
        split; [by constructor | done].
      * intros (entries & Hall & ->).
        apply Forall2_cons_inv_l in Hall as (entry' & entries' & Hentry' & Hall & ->).
        exists entries'. split; [done |]. simpl. congruence.
    + split; [done |]. intros (entries & Hall & _).
      apply Forall2_cons_inv_l in Hall as (entry' & entries' & Hentry' & _).
      congruence.
Qed.

Lemma read_sections_spec (int : string → result Z)
    (sections : list (list (list string))) :
  ∀ section_index library library',
    read_sections int section_index sections library = Parsed library' ↔
    ∃ entries,
      Forall2 (λ record entry, read_message int record.1 record.2 = Parsed entry)
        (records_from section_index sections) entries
      ∧ library' = store_all library entries.
Proof.
  induction sections as [| section sections IH];
    intros section_index library library'; simpl.
  - split.
    + intros [= <-]. exists []. by split; [constructor |].
    + intros (entries & ->%Forall2_nil_inv_l & ->). done.
  - destruct (read_section int section_index section library)
      as [library1 | e] eqn:Hsection; simpl.
    + apply read_section_spec in Hsection as (entries1 & Hall1 & ->).
      rewrite IH. split.
      * intros (entries2 & Hall2 & ->). exists (entries1 ++ entries2). split.
        -- apply Forall2_app; [| done]. by apply Forall2_fmap_l.
        -- unfold store_all. by rewrite foldl_app.
      * intros (entries & Hall & ->).
        apply Forall2_app_inv_l in Hall as (e1 & e2 & Hall1' & Hall2 & ->).
        apply Forall2_fmap_l in Hall1'. simpl in Hall1'.
        assert (e1 = entries1) as ->.
        { clear -Hall1 Hall1'. revert e1 Hall1'.
          induction Hall1 as [| message entry section entries Hentry _ IH'];
            intros e1 Hall1'.
          - by apply Forall2_nil_inv_l in Hall1'.
          - apply Forall2_cons_inv_l in Hall1' as (entry' & e1' & Hentry' & Hrest & ->).
            unfold compose in Hentry'. simpl in Hentry'.
            f_equal; [congruence | by apply IH']. }
        exists e2. split; [done |]. unfold store_all. by rewrite foldl_app.
    + split; [done |]. intros (entries & Hall & _).
      apply Forall2_app_inv_l in Hall as (e1 & e2 & Hall1 & _ & _).
      apply Forall2_fmap_l in Hall1. simpl in Hall1.
      assert (read_section int section_index section library
              = Parsed (store_all library e1)) as Hok.
      { apply read_section_spec. by exists e1. }
      congruence.
Qed.

Lemma records_from_elem (sections : list (list (list string))) :
  ∀ section_index i message,
    (i, message) ∈ records_from section_index sections ↔
    ∃ j section, sections !! j = Some section ∧ message ∈ section
                 ∧ i = (section_index + j)%nat.
Proof.
  induction sections as [| section sections IH]; intros section_index i message;
    simpl.
  - split; [by intros ?%elem_of_nil | by intros (? & ? & ? & _)].
  - rewrite elem_of_app, list_elem_of_fmap, IH. split.
    + intros [(m & [= -> ->] & Hm) | (j & s & Hj & Hm & ->)].
      * exists 0%nat, section. split; [done |]. split; [done | lia].
      * exists (S j), s. split; [done |]. split; [done | lia].
    + intros ([| j] & s & Hj & Hm & ->); simpl in Hj.
      * injection Hj as <-. left. exists message. split; [f_equal; lia | done].
      * right. exists j, s. split; [done |]. split; [done | lia].
Qed.

(** The sections are read to the end exactly when every record is well
    formed. *)
Lemma read_sections_accepts (int : string → result Z)
    (sections : list (list (list string))) (library : dict Message) :
  (∃ library', read_sections int 0 sections library = Parsed library')
  ↔ ∀ record, record ∈ records_of sections → well_formed int record.
Proof.
  unfold records_of. split.
  - intros [library' (entries & Hall & _)%read_sections_spec] record Hrecord.
    apply read_message_well_formed.
    apply list_elem_of_lookup in Hrecord as [n Hn].
    destruct (Forall2_lookup_l _ _ _ _ _ Hall Hn) as (entry & _ & Hentry).
    by exists entry.
  - intros Hall.
    assert (∃ entries,
              Forall2 (λ record entry,
                         read_message int record.1 record.2 = Parsed entry)
                (records_from 0 sections) entries) as [entries Hentries].
    { induction (records_from 0 sections) as [| record records IH].
      - exists []. constructor.
      - destruct IH as [entries Hentries].
        { intros r Hr. by apply Hall, list_elem_of_further. }
        destruct (proj2 (read_message_well_formed int record)) as [entry Hentry].
        { apply Hall, list_elem_of_here. }
        exists (entry :: entries). by constructor. }
    exists (store_all library entries). apply read_sections_spec. by exists entries.
Qed.

(** *** The library that is read *)

Lemma store_all_snoc (library : dict Message) (entries : list (Z * Message))
    (entry : Z * Message) :
  store_all library (entries ++ [entry])
  = dict_set (store_all library entries) entry.1 entry.2.
Proof. unfold store_all. by rewrite foldl_snoc. Qed.

Lemma store_all_keys (entries : list (Z * Message)) :
  dict_keys (store_all [] entries) = first_occurrences entries.*1.
Proof.
  induction entries as [| entry entries IH] using rev_ind; [done |].
  rewrite store_all_snoc, dict_keys_set, fmap_app. simpl.
  rewrite first_occurrences_snoc, IH. f_equal.
  destruct (decide (entry.1 ∈ entries.*1)) as [Hin | Hin].
  - by rewrite decide_True by by apply first_occurrences_elem.
  - by rewrite decide_False by by rewrite first_occurrences_elem.
Qed.

Lemma store_all_get (entries : list (Z * Message)) (k : Z) (m : Message) :
  dict_get (store_all [] entries) k = Ok m ↔
  ∃ before after, entries = before ++ (k, m) :: after ∧ k ∉ after.*1.
Proof.
  induction entries as [| [k' m'] entries IH] using rev_ind.
  - simpl. split; [done |]. intros (before & after & Heq & _).
    by destruct before.
  - rewrite store_all_snoc, dict_get_set. simpl.
    destruct (decide (k = k')) as [-> | Hne].
    + split.
      * intros [= ->]. exists entries, []. split; [done | apply not_elem_of_nil].
      * intros (before & after & Heq & Hafter).
        destruct after as [| a after _] using rev_ind.
        -- apply app_inj_tail in Heq as [_ [= ->]]. done.
        -- rewrite app_comm_cons, app_assoc in Heq.
           apply app_inj_tail in Heq as [_ <-].
           rewrite fmap_app in Hafter. simpl in Hafter.
           exfalso. apply Hafter, elem_of_app. right. apply list_elem_of_here.
    + rewrite IH. split.
      * intros (before & after & -> & Hafter).
        exists before, (after ++ [(k', m')]).
        split; [by rewrite <- app_assoc |].
        rewrite fmap_app. simpl. intros [? | ?%list_elem_of_singleton]%elem_of_app;
          done.
      * intros (before & after & Heq & Hafter).
        destruct after as [| a after _] using rev_ind.
        -- apply app_inj_tail in Heq as [_ [= ? _]]. done.
        -- rewrite app_comm_cons, app_assoc in Heq.
           apply app_inj_tail in Heq as [-> <-].
           exists before, after. split; [done |].
           rewrite fmap_app in Hafter. intros ?. apply Hafter, elem_of_app. by left.
Qed.

Lemma store_all_ids (entries : list (Z * Message)) :
  (∀ entry, entry ∈ entries → id entry.2 = entry.1) →
  ∀ k m, dict_get (store_all [] entries) k = Ok m → id m = k.
Proof.
  intros Hids k m (before & after & -> & _)%store_all_get.
  apply (Hids (k, m)), elem_of_app. right. apply list_elem_of_here.
Qed.

Lemma store_all_NoDup (entries : list (Z * Message)) :
  NoDup (dict_keys (store_all [] entries)).
Proof.
  rewrite store_all_keys. apply first_occurrences_NoDup.
Qed.

(** *** The graph without successors *)

Lemma empty_graph_keys_from (keys : list Z) :
  ∀ graph : dict (gset Z),
    NoDup (dict_keys graph ++ keys) →
    dict_keys (foldl (λ (graph : dict (gset Z)) (message_id : Z),
                        dict_set graph message_id ∅) graph keys)
    = dict_keys graph ++ keys.
Proof.
  induction keys as [| k keys IH]; intros graph Hnodup; simpl.
  - by rewrite app_nil_r.
  - assert (k ∉ dict_keys graph) as Hk.
    { apply NoDup_app in Hnodup as (_ & Hdisjoint & _).
      intros Hin. apply (Hdisjoint k Hin), list_elem_of_here. }
    rewrite IH; rewrite dict_keys_set, decide_False by done.
    + by rewrite <- app_assoc.
    + by rewrite <- app_assoc.
Qed.

Lemma empty_graph_keys (library : dict Message) :
  NoDup (dict_keys library) → dict_keys (empty_graph library) = dict_keys library.
Proof. intros Hnodup. unfold empty_graph. by rewrite empty_graph_keys_from. Qed.

Lemma dict_get_elem {V} (d : dict V) (k : Z) (v : V) :
  dict_get d k = Ok v → (k, v) ∈ d.
Proof.
  induction d as [| [k' v'] d IH]; simpl; [done |].
  case_bool_decide as Hk.
  - intros [= ->]. subst. apply list_elem_of_here.
  - intros Hv. by apply list_elem_of_further, IH.
Qed.

Lemma dict_set_values {V} (P : V → Prop) (d : dict V) (k : Z) (v : V) :
  P v → (∀ entry, entry ∈ d → P entry.2) →
  ∀ entry, entry ∈ dict_set d k v → P entry.2.
Proof.
  intros Hv. induction d as [| [k' v'] d IH]; intros Hd entry; simpl.
  - by intros ->%list_elem_of_singleton.
  - case_bool_decide.
    + intros [-> | Hin]%elem_of_cons; [done |].
      by apply Hd, list_elem_of_further.
    + intros [-> | Hin]%elem_of_cons.
      * apply (Hd (k', v')), list_elem_of_here.
      * apply IH; [| done]. intros e He. by apply Hd, list_elem_of_further.
Qed.

Lemma empty_graph_no_edge (library : dict Message) (a_id b_id : Z) :
  ¬ has_edge (empty_graph library) a_id b_id.
Proof.
  intros (successors & Hget%dict_get_elem & Hb).
  assert (∀ entry : Z * gset Z, entry ∈ empty_graph library → entry.2 = ∅)
    as Hempty.
  { unfold empty_graph. generalize (dict_keys library). intros keys.
    assert (∀ entry : Z * gset Z, entry ∈ ([] : dict (gset Z)) → entry.2 = ∅)
      as Hnil by by intros ? ?%elem_of_nil.
    revert Hnil. generalize ([] : dict (gset Z)).
    induction keys as [| k keys IH]; intros graph Hgraph; simpl; [done |].
    apply IH. by apply (dict_set_values (λ successors : gset Z, successors = ∅)). }
  apply Hempty in Hget. simpl in Hget. subst. by apply not_elem_of_empty in Hb.
Qed.

(** *** [build_graph] *)

Lemma build_graph_Parsed (strip : string → string) (int : string → result Z)
    (text : string) (library : dict Message) (graph : dict (gset Z)) :
  build_graph strip int text = Parsed (library, graph) ↔
  read_sections int 0 (sections_of strip text) [] = Parsed library
  ∧ build_relationships (empty_graph library) library = (graph, Ok tt).
Proof.
  unfold build_graph.
  destruct (read_sections int 0 (sections_of strip text) []) as [library' | e];
    simpl.
  - destruct (build_relationships (empty_graph library') library')
      as [graph' [[] | e]] eqn:Hrun.
    + split.
      * intros [= <- <-]. by rewrite Hrun.
      * intros [[= <-] Hrun']. congruence.
    + split; [done |]. intros [[= <-] Hrun']. congruence.
  - split; [done | by intros [? _]].
Qed.

(** The graph that [build_graph] makes of a library with distinct keys. *)
Lemma causal_graph_built (library : dict Message) :
  NoDup (dict_keys library) →
  ∃ graph,
    build_relationships (empty_graph library) library = (graph, Ok tt)
    ∧ dict_keys graph = dict_keys library
    ∧ ∀ a_id b_id, has_edge graph a_id b_id ↔ causal_ids library a_id b_id.
Proof.
  intros Hnodup. unfold build_relationships.
  pose proof (empty_graph_keys library Hnodup) as Hkeys.
  destruct (relate_all_pairs library (dict_keys (empty_graph library))
              (dict_keys (empty_graph library)) (empty_graph library))
    as (graph & Hrun & Hkeys' & Hedges); [done | |].
  { rewrite Hkeys. intros k [Hk | Hk]; by apply dict_get_key. }
  exists graph. split; [done |]. split; [congruence |].
  intros a_id b_id. rewrite Hedges, Hkeys. split.
  - intros [Hedge | (_ & _ & Hc)]; [by apply empty_graph_no_edge in Hedge | done].
  - intros Hc. right. split; [| split; [| done]].
    + destruct Hc as (a & _ & Ha & _). apply dict_get_key. by exists a.
    + destruct Hc as (_ & b & _ & Hb & _). apply dict_get_key. by exists b.
Qed.

Lemma read_sections_library (int : string → result Z)
    (sections : list (list (list string))) (library : dict Message) :
  read_sections int 0 sections [] = Parsed library →
  ∃ entries,
    Forall2 (λ record entry, read_message int record.1 record.2 = Parsed entry)
      (records_of sections) entries
    ∧ library = store_all [] entries
    ∧ ∀ entry, entry ∈ entries → id entry.2 = entry.1.
Proof.
  intros (entries & Hall & ->)%read_sections_spec.
  exists entries. split; [done |]. split; [done |].
  intros [k m] Hentry.
  apply list_elem_of_lookup in Hentry as [n Hn].
  destruct (Forall2_lookup_r _ _ _ _ _ Hall Hn) as (record & _ & Hread).
  by apply read_message_Parsed
    in Hread as (? & ? & ? & ? & ? & ? & ? & _ & _ & _ & _ & _ & _ & _ & _ & ->).
Qed.

(** X12: what [build_graph] returns: a library with distinct keys in which
    every message is stored under its own id, and a graph with the same
    keys in which [b_id] is a successor of [a_id] exactly when [causal]
    holds of their messages; no id is its own successor. *)
Theorem build_graph_invariants (strip : string → string) (int : string → result Z)
    (text : string) (library : dict Message) (graph : dict (gset Z)) :
  build_graph strip int text = Parsed (library, graph) →
  NoDup (dict_keys library)
  ∧ dict_keys graph = dict_keys library
  ∧ (∀ k m, dict_get library k = Ok m → id m = k)
  ∧ (∀ a_id b_id, has_edge graph a_id b_id ↔ causal_ids library a_id b_id)
  ∧ (∀ a_id, ¬ has_edge graph a_id a_id).
Proof.
  intros [Hread Hrun]%build_graph_Parsed.
  apply read_sections_library in Hread as (entries & _ & -> & Hids).
  pose proof (store_all_NoDup entries) as Hnodup.
  destruct (causal_graph_built _ Hnodup) as (graph' & Hrun' & Hkeys & Hedges).
  assert (graph' = graph) as -> by congruence.
  split; [done |]. split; [done |]. split; [by apply store_all_ids |].
  split; [done |].
  intros a_id Hedge%Hedges. by apply causal_ids_distinct in Hedge.
Qed.

Lemma build_graph_invariants_witness :
  build_graph strip_blanks decimal scenario_text
  = Parsed ([(1, login); (3, ping); (2, login_ack)], [(1, {[2]}); (3, ∅); (2, ∅)])
  ∧ NoDup (dict_keys [(1, login); (3, ping); (2, login_ack)]).
Proof.
  assert (build_graph strip_blanks decimal scenario_text
          = Parsed ([(1, login); (3, ping); (2, login_ack)],
                    [(1, {[2]}); (3, ∅); (2, ∅)])) as Hrun by by vm_compute.
  split; [exact Hrun |].
  by destruct (build_graph_invariants _ _ _ _ _ Hrun) as (Hnodup & _).
Defined.

(** X13: [build_graph] returns exactly when every record of the file is well
    formed: it lies in one of the first three sections, has five fields or
    more, a first field that [int] accepts and a fifth field that is ["req"]
    or ["resp"]. The graph builder never fails on the library read. *)
Theorem build_graph_accepts (strip : string → string) (int : string → result Z)
    (text : string) :
  (∃ library graph, build_graph strip int text = Parsed (library, graph))
  ↔ ∀ record, record ∈ records_of (sections_of strip text) → well_formed int record.
Proof.
  rewrite <- (read_sections_accepts int _ []). split.
  - intros (library & graph & [Hread _]%build_graph_Parsed). by exists library.
  - intros [library Hread].
    destruct (read_sections_library _ _ _ Hread) as (entries & _ & -> & _).
    destruct (causal_graph_built _ (store_all_NoDup entries)) as (graph & Hrun & _).
    exists (store_all [] entries), graph. by apply build_graph_Parsed.
Qed.

Lemma build_graph_accepts_witness :
  ∃ library graph,
    build_graph strip_blanks decimal "7:A:B:op:req#8:B:A:op:resp"
    = Parsed (library, graph).
Proof.
  apply build_graph_accepts. intros record Hrecord. vm_compute in Hrecord.
  repeat (apply elem_of_cons in Hrecord as [-> | Hrecord];
          [split; [simpl; lia |]; split; [simpl; lia |];
           split; [by eexists _, _ |];
           eexists; split; [done | (by left) || (by right)] |]).
  by apply elem_of_nil in Hrecord.
Defined.

(** A record in a fourth section, a record of four fields, a direction in
    capitals. *)
Example build_graph_rejects :
  build_graph strip_blanks decimal "###7:A:B:op:req" = Failed IndexError
  ∧ build_graph strip_blanks decimal "7:A:B:req" = Failed IndexError
  ∧ build_graph strip_blanks decimal "7:A:B:op:REQ" = Failed (Other ValueError).
Proof. by vm_compute. Qed.

(** X14: ids that occur in several records: the library holds every id once,
    in the order of the first records of the ids, and under an id the
    message of the last record with that id, with the position of the
    section of that record. *)
Theorem build_graph_repeated_ids (strip : string → string)
    (int : string → result Z) (text : string)
    (library : dict Message) (graph : dict (gset Z)) :
  build_graph strip int text = Parsed (library, graph) →
  ∃ entries,
    Forall2 (λ record entry, read_message int record.1 record.2 = Parsed entry)
      (records_of (sections_of strip text)) entries
    ∧ dict_keys library = first_occurrences entries.*1
    ∧ ∀ k m, dict_get library k = Ok m ↔
             ∃ before after, entries = before ++ (k, m) :: after ∧ k ∉ after.*1.
Proof.
  intros [Hread _]%build_graph_Parsed.
  apply read_sections_library in Hread as (entries & Hall & -> & _).
  exists entries. split; [done |]. split; [apply store_all_keys |].
  intros k m. apply store_all_get.
Qed.

Lemma build_graph_repeated_ids_witness :
  build_graph strip_blanks decimal "5:A:B:first:req#6:B:A:mid:req#5:B:A:last:resp"
  = Parsed ([(5, mkMessage 5 "B" "A" "last" RESP FINAL);
             (6, mkMessage 6 "B" "A" "mid" REQ INTERMEDIARY)],
            [(5, ∅); (6, ∅)])
  ∧ ∃ entries : list (Z * Message), (length entries = 3)%nat.
Proof.
  set (library := [(5, mkMessage 5 "B" "A" "last" RESP FINAL);
                   (6, mkMessage 6 "B" "A" "mid" REQ INTERMEDIARY)]).
  assert (build_graph strip_blanks decimal
            "5:A:B:first:req#6:B:A:mid:req#5:B:A:last:resp"
          = Parsed (library, [(5, ∅); (6, ∅)])) as Hrun by by vm_compute.
  split; [exact Hrun |].
  destruct (build_graph_repeated_ids _ _ _ _ _ Hrun) as (entries & Hall & _).
  exists entries. by apply Forall2_length in Hall.
Defined.

Example build_graph_scenario :
  build_graph strip_blanks decimal scenario_text
  = Parsed ([(1, login); (3, ping); (2, login_ack)], [(1, {[2]}); (3, ∅); (2, ∅)]).
Proof. by vm_compute. Qed.

(** ** Enumerating over a graph made by the graph builder *)

Lemma closed_graph_no_missing (library : dict Message) (graph : dict (gset Z))
    (p : list Z) :
  (∀ k, k ∈ dict_keys library → k ∈ dict_keys graph) →
  (∀ a_id b_id, has_edge graph a_id b_id → b_id ∈ dict_keys library) →
  path_to_missing library graph p →
  ∀ x, head p = Some x → x ∉ dict_keys library.
Proof.
  intros Hnodes Hclosed.
  induction 1 as [x Hx | x m Hm Hfinal Hx | x y rest m Hm Hfinal Hedge Hrest IH];
    intros z [= <-].
  - done.
  - intros Hin. by apply Hx, Hnodes.
  - exfalso. apply (IH y); [done |]. by eapply Hclosed.
Qed.

(** X15: when every id of the library has an entry in the graph and every
    successor in the graph is an id of the library, the enumeration raises
    no exception: [build_sequences] returns from every id of the library,
    and [generate_all_sequences] returns. *)
Theorem closed_graph_never_raises (set_iter : gset Z → list Z)
    (library : dict Message) (graph : dict (gset Z)) (max_depth : Z) :
  (∀ X : gset Z, set_iter X ≡ₚ elements X) →
  (∀ k, k ∈ dict_keys library → k ∈ dict_keys graph) →
  (∀ a_id b_id, has_edge graph a_id b_id → b_id ∈ dict_keys library) →
  (∀ starting_id,
     starting_id ∈ dict_keys library →
     ∃ sequences,
       build_sequences set_iter starting_id max_depth graph library
       = Some (Ok sequences))
  ∧ ∃ sequences,
      generate_all_sequences set_iter library graph max_depth = Some (Ok sequences).
Proof.
  intros Hiter Hnodes Hclosed.
  assert (∀ starting_id,
            starting_id ∈ dict_keys library →
            ∃ sequences,
              build_sequences set_iter starting_id max_depth graph library
              = Some (Ok sequences)) as Hbuild.
  { intros starting_id Hstart.
    destruct (build_sequences_total set_iter max_depth graph library starting_id)
      as [[sequences | e] Hrun]; [by exists sequences |].
    destruct (proj1 (build_sequences_raises set_iter Hiter max_depth graph library
                       starting_id)) as (p & Hpath & _); [by exists e |].
    by destruct (closed_graph_no_missing _ _ _ Hnodes Hclosed Hpath starting_id). }
  split; [done |].
  destruct (generate_all_sequences_total set_iter max_depth graph library)
    as [[sequences | e] Hrun]; [by exists sequences |].
  apply generate_from_raise_inv in Hrun as (k & Hk & [Hget | (m & _ & _ & Hrun)]).
  - apply dict_get_raise in Hget as [_ Hget]. done.
  - destruct (Hbuild k Hk) as [sequences Hok]. congruence.
Qed.

Lemma closed_graph_never_raises_witness :
  ∃ sequences,
    generate_all_sequences elements scenario_library scenario_graph 7
    = Some (Ok sequences).
Proof.
  apply (closed_graph_never_raises elements scenario_library scenario_graph 7);
    [done | done |].
  intros a_id b_id (successors & Hget & Hb). simpl in Hget.
  repeat (case_bool_decide; [injection Hget as <- |]); try done;
    try (by apply not_elem_of_empty in Hb).
  apply elem_of_singleton in Hb as ->. compute_done.
Defined.

(** *** Chains over causal edges *)

Section causal_edges.
Variables (library : dict Message) (graph : dict (gset Z)).
Hypothesis edges_causal :
  ∀ a_id b_id, has_edge graph a_id b_id → causal_ids library a_id b_id.

Lemma path_to_final_adjacent (p : list Z) :
  path_to_final library graph p →
  ∀ (i : nat) a_id b_id,
    p !! i = Some a_id → p !! S i = Some b_id → causal_ids library a_id b_id.
Proof.
  induction 1 as [x m Hm Hfinal | x y rest m Hm Hfinal Hedge Hrest IH];
    intros [| i] a_id b_id Ha Hb; simpl in *.
  - done.
  - by rewrite lookup_nil in Ha.
  - injection Ha as <-. injection Hb as <-. by apply edges_causal.
  - by eapply IH.
Qed.

Lemma causal_ids_inv (a_id b_id : Z) (a b : Message) :
  causal_ids library a_id b_id →
  dict_get library a_id = Ok a → dict_get library b_id = Ok b →
  causal a b = true.
Proof. intros (a' & b' & Ha & Hb & Hc) Ha' Hb'. congruence. Qed.

Lemma path_to_final_tail (p : list Z) :
  path_to_final library graph p →
  ∀ (i : nat) x m,
    (0 < i)%nat → p !! i = Some x → dict_get library x = Ok m →
    position m ≠ INITIAL.
Proof.
  intros Hpath i x m Hi Hx Hm.
  destruct i as [| i]; [lia |].
  destruct (lookup_lt_is_Some_2 p i) as [w Hw].
  { apply lookup_lt_Some in Hx. lia. }
  pose proof (path_to_final_adjacent p Hpath i w x Hw Hx) as (a & b & Ha & Hb & Hc).
  apply causal_true_iff in Hc as (_ & _ & _ & Hinit & _). congruence.
Qed.

(** After a response every message is a response. *)
Lemma path_to_final_responses (p : list Z) :
  path_to_final library graph p →
  ∀ a_id a,
    head p = Some a_id → dict_get library a_id = Ok a → direction a = RESP →
    ∀ b_id b, b_id ∈ p → dict_get library b_id = Ok b → direction b = RESP.
Proof.
  induction 1 as [x m Hm Hfinal | x y rest m Hm Hfinal Hedge Hrest IH];
    intros a_id a [= <-] Ha Hresp b_id b Hin Hb.
  - apply list_elem_of_singleton in Hin as ->. congruence.
  - apply elem_of_cons in Hin as [-> | Hin]; [congruence |].
    apply edges_causal in Hedge as (a' & y' & Ha' & Hy & Hc).
    apply causal_true_iff in Hc as (Hdir & _).
    assert (direction y' = RESP) as Hy'.
    { destruct (direction y') eqn:Hy'; [| done].
      exfalso. apply Hdir. split; [congruence | done]. }
    by apply (IH y y' eq_refl Hy Hy' b_id b).
Qed.

Lemma path_to_final_drop (p : list Z) :
  path_to_final library graph p →
  ∀ i : nat, (i < length p)%nat → path_to_final library graph (drop i p).
Proof.
  induction 1 as [x m Hm Hfinal | x y rest m Hm Hfinal Hedge Hrest IH];
    intros [| i] Hi; simpl in *.
  - by eapply path_final.
  - lia.
  - by eapply path_step.
  - apply (IH i). lia.
Qed.

Lemma path_to_final_directions (p : list Z) :
  path_to_final library graph p →
  ∀ (i j : nat) a_id b_id a b,
    (i ≤ j)%nat → p !! i = Some a_id → p !! j = Some b_id →
    dict_get library a_id = Ok a → dict_get library b_id = Ok b →
    direction a = RESP → direction b = RESP.
Proof.
  intros Hpath i j a_id b_id a b Hij Hi Hj Ha Hb Hresp.
  assert (i < length p)%nat as Hlen by by eapply lookup_lt_Some.
  apply (path_to_final_responses (drop i p) (path_to_final_drop p Hpath i Hlen)
           a_id a) with (b_id := b_id); [| done | done | | done].
  - by rewrite head_lookup, lookup_drop, Nat.add_0_r.
  - apply (list_elem_of_lookup_2 _ (j - i)).
    rewrite lookup_drop. by replace (i + (j - i))%nat with j by lia.
Qed.
End causal_edges.

(** X16: over a graph whose edges all satisfy [causal], as the graph builder
    makes them from a graph without successors, every sequence returned by
    [generate_all_sequences] has two ids or more, every two neighbours in it
    satisfy [causal], every message strictly between the first and the last
    is INTERMEDIARY, and no request comes after a response. *)
Theorem causal_graph_sequences (set_iter : gset Z → list Z)
    (library : dict Message) (graph : dict (gset Z)) (max_depth : Z)
    (sequences : list (list Z)) :
  (∀ X : gset Z, set_iter X ≡ₚ elements X) →
  (∀ a_id b_id, has_edge graph a_id b_id → causal_ids library a_id b_id) →
  generate_all_sequences set_iter library graph max_depth = Some (Ok sequences) →
  ∀ s, s ∈ sequences →
    (2 ≤ length s)%nat
    ∧ (∀ (i : nat) a_id b_id,
         s !! i = Some a_id → s !! S i = Some b_id →
         causal_ids library a_id b_id)
    ∧ (∀ (i : nat) x m,
         (0 < i)%nat → (S i < length s)%nat →
         s !! i = Some x → dict_get library x = Ok m →
         position m = INTERMEDIARY)
    ∧ (∀ (i j : nat) a_id b_id a b,
         (i ≤ j)%nat → s !! i = Some a_id → s !! j = Some b_id →
         dict_get library a_id = Ok a → dict_get library b_id = Ok b →
         direction a = RESP → direction b = RESP).
Proof.
  intros Hiter Hcausal Hrun s Hs.
  apply (generate_all_sequences_spec _ Hiter _ _ _ _ Hrun) in Hs
    as (first & m & Hm & Hinit & Hhead & Hpath & _ & _).
  split; [| split; [| split]].
  - destruct s as [| x [| y s]]; simpl; [done | | lia].
    injection Hhead as ->.
    pose proof (path_to_final_leaf _ _ _ Hpath 0 first m eq_refl Hm) as Hleaf.
    inversion Hpath as [? m' Hm' Hfinal |]; subst. congruence.
  - apply (path_to_final_adjacent library graph Hcausal s Hpath).
  - intros i x mx Hi Hlast Hx Hmx.
    pose proof (path_to_final_tail _ _ Hcausal s Hpath i x mx Hi Hx Hmx) as Hnot_first.
    assert (position mx ≠ FINAL) as Hnot_last.
    { intros Hfinal.
      pose proof (path_to_final_leaf _ _ _ Hpath i x mx Hx Hmx Hfinal). lia. }
    by destruct (position mx).
  - apply (path_to_final_directions library graph Hcausal s Hpath).
Qed.

Lemma causal_graph_sequences_witness :
  generate_all_sequences elements scenario_library scenario_graph 2
  = Some (Ok [[1; 2]])
  ∧ (2 ≤ length [1; 2])%nat.
Proof.
  assert (generate_all_sequences elements scenario_library scenario_graph 2
          = Some (Ok [[1; 2]])) as Hrun by by vm_compute.
  split; [exact Hrun |].
  destruct (causal_graph_sequences elements scenario_library scenario_graph 2
              [[1; 2]]) with (s := [1; 2]) as (Hlen & _);
    [done | | exact Hrun | apply list_elem_of_here | done].
  intros a_id b_id (successors & Hget & Hb). simpl in Hget.
  repeat (case_bool_decide; [injection Hget as <- |]); try done;
    try (by apply not_elem_of_empty in Hb).
  apply elem_of_singleton in Hb as ->. subst. by exists login, login_ack.
Defined.

(** X17: the library and graph that [build_graph] returns can be enumerated
    with every depth bound: [generate_all_sequences] raises no exception on
    them, and every two neighbours of a sequence it returns satisfy
    [causal]. *)
Theorem build_graph_enumerates (strip : string → string) (int : string → result Z)
    (text : string) (library : dict Message) (graph : dict (gset Z))
    (set_iter : gset Z → list Z) (max_depth : Z) :
  (∀ X : gset Z, set_iter X ≡ₚ elements X) →
  build_graph strip int text = Parsed (library, graph) →
  ∃ sequences,
    generate_all_sequences set_iter library graph max_depth = Some (Ok sequences)
    ∧ ∀ s (i : nat) a_id b_id,
        s ∈ sequences → s !! i = Some a_id → s !! S i = Some b_id →
        ∃ a b, dict_get library a_id = Ok a ∧ dict_get library b_id = Ok b
               ∧ causal a b = true.
Proof.
  intros Hiter [Hread Hrun]%build_graph_Parsed.
  apply read_sections_library in Hread as (entries & _ & -> & _).
  destruct (causal_graph_built _ (store_all_NoDup entries))
    as (graph' & Hrun' & Hkeys & Hedges).
  assert (graph' = graph) as -> by congruence.
  set (library := store_all [] entries) in *.
  destruct (generate_all_sequences_total set_iter max_depth graph library)
    as [[sequences | e] Hall].
  - exists sequences. split; [done |].
    intros s i a_id b_id Hs Ha Hb.
    apply (generate_all_sequences_spec _ Hiter _ _ _ _ Hall) in Hs
      as (_ & _ & _ & _ & _ & Hpath & _ & _).
    assert (∀ x y, has_edge graph x y → causal_ids library x y) as Hcausal.
    { intros x y. by apply Hedges. }
    by apply (path_to_final_adjacent library graph Hcausal s Hpath i).
  - exfalso.
    apply generate_from_raise_inv in Hall as (k & Hk & [Hget | (m & _ & _ & Hraise)]).
    { apply dict_get_raise in Hget as [_ Hget]. done. }
    destruct (proj1 (build_sequences_raises set_iter Hiter max_depth graph library k))
      as (p & Hpath & _); [by exists e |].
    apply (closed_graph_no_missing library graph (k :: p)) with (x := k) in Hpath;
      [done | | | done].
    + intros k'. by rewrite Hkeys.
    + intros a_id b_id (_ & b & _ & Hb & _)%Hedges. apply dict_get_key. by exists b.
Qed.

Lemma build_graph_enumerates_witness :
  ∃ sequences,
    generate_all_sequences elements [(1, login); (3, ping); (2, login_ack)]
      [(1, {[2]}); (3, ∅); (2, ∅)] 2
    = Some (Ok sequences).
Proof.
  destruct (build_graph_enumerates strip_blanks decimal scenario_text
              [(1, login); (3, ping); (2, login_ack)] [(1, {[2]}); (3, ∅); (2, ∅)]
              elements 2) as (sequences & Hrun & _); [done | by vm_compute |].
  by exists sequences.
Defined.
